(** * hashmap.c: the string-keyed hash table of PuTTY-X

    A shallow embedding of [src/hashmap.c] and the properties of its
    bucket indexing, chaining, insertion and lookup.

    Conventions of the embedding.
    - A [char *] is an address ([ptr], a [Z]); [NULL] is address 0.  The
      table stores the addresses it is given and never copies the strings,
      so keys and values stay addresses; it reads the bytes at a key to
      hash them and both strings to print its debug line.  The bytes
      behind the addresses live in a flat memory image ([list byte],
      address = position), fixed while the table operations run.
    - A [hashmap_entry *next] is an owning link: the only stores to a
      [next] field write [NULL] or the result of a fresh [snew], so every
      node has one predecessor and a chain is a finite list of nodes.  It
      is modelled as [option hashmap_entry].
    - [snew]/[snewn] return or do not return at all (they end the process
      when memory is short), and do not initialise what they return.  The
      contents a fresh block happens to hold are an input of the function
      that allocates ([raw] for the bucket array, [junk] for a chain
      node).
    - The functions that take a [hashmap *] run in a small state monad
      over the table; [assert] failing aborts the run, and so does
      [sprintf] writing past the buffer it is given (undefined behaviour,
      taken to end the run).  [MessageBox] shows a window and waits; it
      has no part in the table or in what is returned.
    - [crc32_compute] belongs to ssh.h and [sizeof(char * )] to the target;
      both are parameters of the development. *)

From Stdlib Require Import ZArith Lia Strings.Byte Strings.String.
From stdpp Require Import base list.

Open Scope Z_scope.

(** ** Data model (hashmap.c, lines 43-58) *)

Definition ptr := Z.
Definition NULL : ptr := 0.

Definition NUM_BUCKETS : Z := 256.

#[warnings="-register-all"] Inductive hashmap_entry : Type := mk_entry {
  key : ptr;                      (* char *key *)
  value : ptr;                    (* char *value *)
  has_entry : Z;                  (* unsigned int has_entry *)
  next : option hashmap_entry     (* hashmap_entry *next, in case of collision *)
}.

Record hashmap : Type := mk_hashmap {
  data : list hashmap_entry;      (* hashmap_entry *data *)
  num_buckets : Z;                (* unsigned int num_buckets *)
  num_entries : Z                 (* unsigned int num_entries *)
}.

(** Field assignments [cell->f = x]. *)
Definition set_key (x : ptr) (cell : hashmap_entry) : hashmap_entry :=
  mk_entry x (value cell) (has_entry cell) (next cell).
Definition set_value (x : ptr) (cell : hashmap_entry) : hashmap_entry :=
  mk_entry (key cell) x (has_entry cell) (next cell).
Definition set_has_entry (x : Z) (cell : hashmap_entry) : hashmap_entry :=
  mk_entry (key cell) (value cell) x (next cell).
Definition set_next (x : option hashmap_entry) (cell : hashmap_entry) : hashmap_entry :=
  mk_entry (key cell) (value cell) (has_entry cell) x.

(** Induction along a chain, from its last node back to its first. *)
Definition chain_ind (P : hashmap_entry → Prop)
    (Hlast : ∀ k v f, P (mk_entry k v f None))
    (Hlink : ∀ k v f n, P n → P (mk_entry k v f (Some n)))
  : ∀ cell, P cell :=
  fix go cell :=
    match cell with
    | mk_entry k v f None => Hlast k v f
    | mk_entry k v f (Some n) => Hlink k v f n (go n)
    end.

(** ** Outcomes and the state monad of the table operations *)

Inductive outcome (A : Type) : Type :=
| Returns (a : A) (h : hashmap)   (* normal return, with the table as it is left *)
| AssertFailed                    (* assert(...) failed: the process is aborted *)
| OutOfBounds                     (* h->data + index outside the bucket array *)
| BufferOverrun.                  (* sprintf wrote past the end of info[256] *)
Arguments Returns {A} a h.
Arguments AssertFailed {A}.
Arguments OutOfBounds {A}.
Arguments BufferOverrun {A}.

Definition M (A : Type) : Type := hashmap → outcome A.

#[export] Instance M_ret : MRet M := λ A a h, Returns a h.
#[export] Instance M_bind : MBind M := λ A B f m h,
  match m h with
  | Returns a h' => f a h'
  | AssertFailed => AssertFailed
  | OutOfBounds => OutOfBounds
  | BufferOverrun => BufferOverrun
  end.

(** Reading a field of [*h]. *)
Definition reads {A : Type} (f : hashmap → A) : M A := λ h, Returns (f h) h.

(** Element [i] of the bucket array, if the array has one. *)
Definition bucket (h : hashmap) (i : Z) : option hashmap_entry :=
  if decide (0 ≤ i) then data h !! Z.to_nat i else None.

(** [cell = h->data + index], read. *)
Definition load_cell (index : Z) : M hashmap_entry := λ h,
  match bucket h index with
  | Some cell => Returns cell h
  | None => OutOfBounds
  end.

(** The table with element [i] of the bucket array replaced. *)
Definition with_bucket (h : hashmap) (i : Z) (cell : hashmap_entry) : hashmap :=
  mk_hashmap (<[Z.to_nat i := cell]> (data h)) (num_buckets h) (num_entries h).

(** The writes through [cell] into [h->data[index]] and the nodes it owns. *)
Definition store_cell (index : Z) (cell : hashmap_entry) : M unit := λ h,
  if decide (0 ≤ index < Z.of_nat (length (data h)))
  then Returns tt (with_bucket h index cell)
  else OutOfBounds.

(** [assert(b)] from <assert.h>; NDEBUG is not defined in hashmap.c. *)
Definition assert (b : bool) : M unit := λ h,
  if b then Returns tt h else AssertFailed.

(** ** Hashmap() (lines 60-68) *)

(** [memset(h->data, '\0', sizeof(h->data))]: [h->data] is a pointer, so
    [sizeof(h->data)] is the size of one pointer, and the bytes cleared are
    those of the first pointer-sized member of the first element,
    [h->data[0].key].  Nothing else of the block is written. *)
Definition memset_sizeof_data (block : list hashmap_entry) : list hashmap_entry :=
  match block with
  | [] => []
  | cell :: rest => set_key NULL cell :: rest
  end.

(** [raw i] is what element [i] of the block returned by
    [snewn(NUM_BUCKETS, hashmap_entry)] holds before it is touched; a link
    found there is NULL or leads to readable nodes. *)
Definition Hashmap (raw : nat → hashmap_entry) : hashmap :=
  let block := map raw (seq 0 (Z.to_nat NUM_BUCKETS)) in
  {| data := memset_sizeof_data block;
     num_entries := 0;
     num_buckets := NUM_BUCKETS |}.

(** ** Strings in memory *)

Definition memory := list byte.

(** The [n] bytes at address [p]. *)
Definition bytes_at (mem : memory) (p : ptr) (n : nat) : list byte :=
  take n (drop (Z.to_nat p) mem).

(** The bytes of a NUL-terminated string, terminator excluded. *)
Fixpoint cstring (bs : list byte) : list byte :=
  match bs with
  | [] => []
  | b :: rest => if Byte.eqb b x00 then [] else b :: cstring rest
  end.

(** The content of the C string at address [p]. *)
Definition string_at (mem : memory) (p : ptr) : list byte :=
  cstring (drop (Z.to_nat p) mem).

(** ** The debug line of hashmap_get (lines 137-141) *)

(** The character of a decimal digit. *)
Definition digit (d : Z) : byte :=
  default x30 (Byte.of_N (Z.to_N (48 + d))).

(** The digits of [n], at most [fuel] of them, most significant first. *)
Fixpoint decimal_digits (fuel : nat) (n : Z) : list byte :=
  match fuel with
  | O => []
  | S fuel' =>
      (if n <? 10 then [] else decimal_digits fuel' (n / 10)) ++ [digit (n `mod` 10)]
  end.

(** What [%d] prints for a 32-bit [int]: a sign and at most ten digits.
    The two numbers printed, a bucket index and a count of links, are not
    negative. *)
Definition decimal (n : Z) : list byte :=
  if n <? 0
  then list_byte_of_string "-" ++ decimal_digits 10 (- n)
  else decimal_digits 10 n.

(** The text of [sprintf(info, "%d-%d: '%s'->'%s'", index, link_idx,
    cell->key, cell->value)], without its terminating NUL. *)
Definition info_text (mem : memory) (index link_idx : Z) (k v : ptr) : list byte :=
  decimal index ++ list_byte_of_string "-" ++ decimal link_idx
  ++ list_byte_of_string ": '" ++ string_at mem k
  ++ list_byte_of_string "'->'" ++ string_at mem v
  ++ list_byte_of_string "'".

(** [char info[256]; sprintf(info, ...)]: the text and its NUL fit the 256
    bytes of [info], or [sprintf] writes past them. *)
Definition sprintf_info (mem : memory) (index link_idx : Z) (k v : ptr) : M unit :=
  λ h, if decide (length (info_text mem index link_idx k v) < 256)%nat
       then Returns tt h
       else BufferOverrun.

(** Strings short enough for the debug line to fit whatever the two
    numbers printed before them: 22 characters for the numbers at most, 9
    for what stands around, 224 left for the two strings. *)
Definition short_pair (mem : memory) (k v : ptr) : Prop :=
  (length (string_at mem k) + length (string_at mem v) ≤ 224)%nat.

(** ** Reading a table *)

(** The keys held by the cells of a chain, from [cell] on. *)
Fixpoint chain_keys (cell : hashmap_entry) : list ptr :=
  key cell :: match next cell with
              | Some n => chain_keys n
              | None => []
              end.

(** The (key, value) pairs held by the cells of a chain, from [cell] on. *)
Fixpoint chain (cell : hashmap_entry) : list (ptr * ptr) :=
  (key cell, value cell) :: match next cell with
                            | Some n => chain n
                            | None => []
                            end.

(** The entries of bucket [i]: the chain rooted at the slot when the slot
    is flagged as holding an entry, nothing otherwise. *)
Definition entries (h : hashmap) (i : Z) : list (ptr * ptr) :=
  match bucket h i with
  | Some cell => if has_entry cell =? 1 then chain cell else []
  | None => []
  end.

Definition entry_keys (h : hashmap) (i : Z) : list ptr := (entries h i).*1.

(** The bucket array has the length [num_buckets] says, and is not empty. *)
Definition well_sized (h : hashmap) : Prop :=
  num_buckets h = Z.of_nat (length (data h)) ∧ 0 < num_buckets h.

(** The keys of a chain before the first cell holding [k]. *)
Fixpoint keys_before (k : ptr) (ks : list ptr) : list ptr :=
  match ks with
  | [] => []
  | k' :: rest => if k =? k' then [] else k' :: keys_before k rest
  end.

(** What a run returned, and the table it left. *)
Definition result {A : Type} (o : outcome A) : option A :=
  match o with
  | Returns a _ => Some a
  | _ => None
  end.
Definition final {A : Type} (o : outcome A) : option hashmap :=
  match o with
  | Returns _ h => Some h
  | _ => None
  end.

(** ** Concrete data to run the code on *)

(** Modelled from the spec: the byte-hashing routine [hash_bytes], a CRC32
    in the original ([crc32_compute] of ssh.h, whose source is not with
    hashmap.c).  This one is the CRC-32 of the reflected polynomial
    EDB88320, taken one bit at a time, starting from 0. *)
Definition crc32_shift (crc : Z) : Z :=
  if Z.testbit crc 0
  then Z.lxor (Z.shiftr crc 1) 0xEDB88320
  else Z.shiftr crc 1.
Definition crc32_update (crc : Z) (b : byte) : Z :=
  Nat.iter 8 crc32_shift (Z.lxor crc (Z.of_N (Byte.to_N b))).
Definition crc32_bitwise (buf : list byte) : Z :=
  fold_left crc32_update buf 0.

(** A memory image.  Address 0 is NULL; the strings follow one another:
<<
      1 "hostname"     10 "hostname"     19 "hostname1"   29 "hostname2"
     39 "ab"           42 "port"         47 "ab"          50 "user"
     55 "example.com"  67 "example.org"  79 "22"
>> *)
Definition sample_mem : memory :=
  x00 :: concat (map (λ s, list_byte_of_string s ++ [x00])
    ["hostname"; "hostname"; "hostname1"; "hostname2";
     "ab"; "port"; "ab"; "user";
     "example.com"; "example.org"; "22"]%string).

(** The same memory followed, at address 82, by a string of 300 bytes. *)
Definition long_mem : memory :=
  sample_mem ++ replicate 300 x78 ++ [x00].

(** A block that happens to be all zero bytes. *)
Definition zero_block : nat → hashmap_entry :=
  λ _, mk_entry NULL NULL 0 None.

(** A block that is zero except for element 1, which holds what a freed
    chain head left behind: flag 1, a stale key and a stale value. *)
Definition stale_block : nat → hashmap_entry :=
  λ i, if (i =? 1)%nat then mk_entry 42 79 1 None else mk_entry NULL NULL 0 None.

(** An uninitialised chain node. *)
Definition stale_node : hashmap_entry := mk_entry 50 55 3 None.

Section Code.

(** [unsigned long crc32_compute(const void *buf, size_t len)] of ssh.h,
    applied to the [len] bytes at [buf]. *)
Variable crc32_compute : list byte → Z.
(** [sizeof(char * )]. *)
Variable sizeof_ptr : nat.
(** The memory holding the key strings. *)
Variable mem : memory.

(** ** hash (lines 76-80) *)

(** [sizeof(key)] is the size of the pointer [key]; the bytes hashed are
    the first [sizeof_ptr] bytes found at the address [key]. *)
Definition hash (h : hashmap) (k : ptr) : Z :=
  let index := crc32_compute (bytes_at mem k sizeof_ptr) in
  index `mod` num_buckets h.

(** ** hashmap_add (lines 82-107) *)

(** The three assignments that end [hashmap_add]:
    [cell->key = key; cell->value = value; cell->next = NULL]. *)
Definition fill (k v : ptr) (cell : hashmap_entry) : hashmap_entry :=
  set_next None (set_value v (set_key k cell)).

(** The body of [if (cell->has_entry == 1 && key != cell->key)], from
    [cell] on, together with the three final assignments on the cell it
    ends at:
<<
      while (cell->next != NULL && key != cell->key) cell = cell->next;
      if (key != cell->key) { cell->next = snew(hashmap_entry); cell = cell->next; }
>>
    [junk] is the uninitialised node [snew] returns. *)
Fixpoint add_chain (junk : hashmap_entry) (k v : ptr) (cell : hashmap_entry)
  : hashmap_entry :=
  match next cell with
  | Some n =>
      if negb (k =? key cell)
      then set_next (Some (add_chain junk k v n)) cell   (* cell = cell->next *)
      else fill k v cell
  | None =>
      if negb (k =? key cell)
      then set_next (Some (fill k v junk)) cell          (* cell->next = snew(..) *)
      else fill k v cell
  end.

(** What the body of [hashmap_add] makes of the bucket slot [cell] and
    the nodes behind it. *)
Definition add_at (junk : hashmap_entry) (k v : ptr) (cell : hashmap_entry)
  : hashmap_entry :=
  if (has_entry cell =? 1) && negb (k =? key cell)
  then add_chain junk k v cell
  else fill k v (set_has_entry 1 cell).           (* cell->has_entry = 1 *)

(** Nothing is returned although the function is declared [unsigned int]. *)
Definition hashmap_add (junk : hashmap_entry) (k v : ptr) : M unit :=
  index ← reads (λ h, hash h k);
  cell ← load_cell index;
  store_cell index (add_at junk k v cell).

(** ** hashmap_get (lines 121-143) *)

(** [while (cell->next != NULL && cell->key != key) cell = cell->next]:
    the cell the loop stops at. *)
Fixpoint get_walk (k : ptr) (cell : hashmap_entry) : hashmap_entry :=
  match next cell with
  | Some n => if negb (key cell =? k) then get_walk k n else cell
  | None => cell
  end.

(** [link_idx]: the number of times the body of that loop runs. *)
Fixpoint get_link_idx (k : ptr) (cell : hashmap_entry) : Z :=
  match next cell with
  | Some n => if negb (key cell =? k) then 1 + get_link_idx k n else 0
  | None => 0
  end.

(** HASHMAP_WIN_DEBUG is defined at line 109, so the debug lines are
    always compiled: the links are counted, the line is printed into
    [info] and shown by [MessageBox]. *)
Definition hashmap_get (k : ptr) : M ptr :=
  index ← reads (λ h, hash h k);
  cell ← load_cell index;
  let link_idx := get_link_idx k cell in
  let cell := get_walk k cell in
  assert (key cell =? k);;
  sprintf_info mem index link_idx (key cell) (value cell);;
  mret (value cell).

(** ** Callers: a run of insertions *)

(** One call [hashmap_add(h, key, value)], with the node [snew] would
    hand out during that call. *)
Record insertion : Type := mk_insertion {
  ins_junk : hashmap_entry;
  ins_key : ptr;
  ins_value : ptr
}.

Definition ins_pair (op : insertion) : ptr * ptr := (ins_key op, ins_value op).

Fixpoint hashmap_add_all (ops : list insertion) : M unit :=
  match ops with
  | [] => mret tt
  | op :: rest =>
      hashmap_add (ins_junk op) (ins_key op) (ins_value op);;
      hashmap_add_all rest
  end.

(** No cell of the table holds the key [k], flagged or not. *)
Definition holds_not (h : hashmap) (k : ptr) : Prop :=
  ∀ i cell, bucket h i = Some cell → k ∉ chain_keys cell.

(** * Properties *)

(** ** Chains *)

Lemma chain_keys_chain cell : chain_keys cell = (chain cell).*1.
Proof.
  induction cell as [k v f|k v f n IH] using chain_ind; simpl; [done|].
  by rewrite IH.
Qed.

Lemma keys_before_absent k ks : k ∉ ks → keys_before k ks = ks.
Proof.
  induction ks as [|k' ks IH]; simpl; [done|].
  intros Hk. apply not_elem_of_cons in Hk as [Hne Hk].
  destruct (Z.eqb_spec k k'); [done|]. by rewrite IH.
Qed.

Lemma keys_before_sublist k ks : keys_before k ks `sublist_of` ks.
Proof.
  induction ks as [|k' ks IH]; simpl; [done|].
  destruct (k =? k'); [apply sublist_nil_l | by apply sublist_skip].
Qed.

Lemma keys_before_not_elem k ks : k ∉ keys_before k ks.
Proof.
  induction ks as [|k' ks IH]; simpl; [apply not_elem_of_nil|].
  destruct (Z.eqb_spec k k'); [apply not_elem_of_nil|].
  by apply not_elem_of_cons.
Qed.

Lemma keys_before_snoc k ks : k ∉ ks → keys_before k (ks ++ [k]) = ks.
Proof.
  induction ks as [|k' ks IH]; simpl; [by rewrite Z.eqb_refl|].
  intros Hk. apply not_elem_of_cons in Hk as [Hne Hk].
  destruct (Z.eqb_spec k k'); [done|]. by rewrite IH.
Qed.

Lemma keys_before_again k ks :
  keys_before k (keys_before k ks ++ [k]) = keys_before k ks.
Proof. apply keys_before_snoc, keys_before_not_elem. Qed.

Lemma keys_before_NoDup k ks : NoDup ks → NoDup (keys_before k ks ++ [k]).
Proof.
  intros Hnd. apply NoDup_app. split_and!.
  - eapply sublist_NoDup; [done|apply keys_before_sublist].
  - intros x Hx Hin. apply list_elem_of_singleton in Hin as ->.
    by apply keys_before_not_elem in Hx.
  - apply NoDup_singleton.
Qed.

(** The cell a lookup of [k] stops at holds [k] as soon as some cell of
    the chain does, and is then the first such cell. *)
Lemma get_walk_key_elem k cell : key (get_walk k cell) ∈ chain_keys cell.
Proof.
  induction cell as [k' v f|k' v f n IH] using chain_ind; simpl.
  - apply list_elem_of_here.
  - destruct (Z.eqb_spec k' k); simpl.
    + apply list_elem_of_here.
    + by apply list_elem_of_further.
Qed.

Lemma get_walk_absent k cell : k ∉ chain_keys cell → key (get_walk k cell) ≠ k.
Proof. intros Hk Heq. apply Hk. rewrite <-Heq. apply get_walk_key_elem. Qed.

Lemma get_walk_present k v cell :
  NoDup (chain_keys cell) → (k, v) ∈ chain cell →
  key (get_walk k cell) = k ∧ value (get_walk k cell) = v.
Proof.
  induction cell as [k' v' f|k' v' f n IH] using chain_ind; simpl.
  - intros _ Hin. apply list_elem_of_singleton in Hin. by simplify_eq.
  - intros Hnd Hin. apply NoDup_cons in Hnd as [Hk' Hnd].
    apply elem_of_cons in Hin as [Heq|Hin].
    + simplify_eq. by rewrite Z.eqb_refl.
    + destruct (Z.eqb_spec k' k) as [->|Hne]; simpl; [|by apply IH].
      exfalso. apply Hk'. rewrite chain_keys_chain.
      apply list_elem_of_fmap. by exists (k, v).
Qed.

(** After the insertion of [k], a lookup of [k] along the same chain
    stops at a cell holding [k] and [v]. *)
Lemma get_walk_add_chain junk k v cell :
  key (get_walk k (add_chain junk k v cell)) = k ∧
  value (get_walk k (add_chain junk k v cell)) = v.
Proof.
  induction cell as [k' v' f|k' v' f n IH] using chain_ind; simpl.
  - destruct (Z.eqb_spec k k') as [->|Hne]; simpl; [done|].
    destruct (Z.eqb_spec k' k); [congruence|done].
  - destruct (Z.eqb_spec k k') as [->|Hne]; simpl; [done|].
    destruct (Z.eqb_spec k' k); [congruence|done].
Qed.

Lemma chain_keys_add_chain junk k v cell :
  chain_keys (add_chain junk k v cell) = keys_before k (chain_keys cell) ++ [k].
Proof.
  induction cell as [k' v' f|k' v' f n IH] using chain_ind; simpl.
  - by destruct (Z.eqb_spec k k') as [->|Hne].
  - destruct (Z.eqb_spec k k') as [->|Hne]; simpl; [done|]. by rewrite IH.
Qed.

(** A key no cell of the chain holds goes into a new node, linked behind
    the last cell; the cells before it keep their keys and values. *)
Lemma chain_add_chain_fresh junk k v cell :
  k ∉ chain_keys cell → chain (add_chain junk k v cell) = chain cell ++ [(k, v)].
Proof.
  induction cell as [k' v' f|k' v' f n IH] using chain_ind; simpl;
    intros Hk; apply not_elem_of_cons in Hk as [Hne Hk];
    destruct (Z.eqb_spec k k'); try done; simpl.
  by rewrite IH.
Qed.

(** A second insertion of [k] finds the cell the first one wrote. *)
Lemma add_chain_twice junk1 junk2 k v1 v2 cell :
  add_chain junk2 k v2 (add_chain junk1 k v1 cell) = add_chain junk1 k v2 cell.
Proof.
  induction cell as [k' v' f|k' v' f n IH] using chain_ind; simpl.
  - destruct (Z.eqb_spec k k') as [->|Hne]; simpl.
    + by rewrite Z.eqb_refl.
    + destruct (Z.eqb_spec k k'); [done|]. simpl. by rewrite Z.eqb_refl.
  - destruct (Z.eqb_spec k k') as [->|Hne]; simpl.
    + by rewrite Z.eqb_refl.
    + destruct (Z.eqb_spec k k'); [done|]. simpl. by rewrite IH.
Qed.

Lemma add_chain_head junk k v cell :
  k ≠ key cell →
  key (add_chain junk k v cell) = key cell ∧
  has_entry (add_chain junk k v cell) = has_entry cell.
Proof.
  intros Hne. destruct cell as [k' v' f [n|]]; simpl in *;
    by destruct (Z.eqb_spec k k').
Qed.

(** ** One bucket slot *)

Lemma has_entry_add_at junk k v cell : has_entry (add_at junk k v cell) = 1.
Proof.
  unfold add_at. destruct (Z.eqb_spec (has_entry cell) 1) as [Hf|Hf]; simpl; [|done].
  destruct (Z.eqb_spec k (key cell)) as [Hk|Hk]; simpl; [done|].
  by destruct (add_chain_head junk k v cell Hk) as [_ ->].
Qed.

Lemma chain_keys_add_at junk k v cell :
  chain_keys (add_at junk k v cell) =
  keys_before k (if has_entry cell =? 1 then chain_keys cell else []) ++ [k].
Proof.
  unfold add_at. destruct (has_entry cell =? 1); simpl; [|done].
  destruct (Z.eqb_spec k (key cell)) as [Hk|Hk]; simpl.
  - destruct cell as [k' v' f n]; simpl in *. subst. by rewrite Z.eqb_refl.
  - apply chain_keys_add_chain.
Qed.

Lemma chain_add_at_fresh junk k v cell :
  has_entry cell = 1 → k ∉ chain_keys cell →
  chain (add_at junk k v cell) = chain cell ++ [(k, v)].
Proof.
  intros Hf Hk. unfold add_at. rewrite Hf. simpl.
  destruct (Z.eqb_spec k (key cell)) as [Heq|Hne]; simpl.
  - exfalso. apply Hk. rewrite Heq. destruct cell; apply list_elem_of_here.
  - by apply chain_add_chain_fresh.
Qed.

Lemma chain_add_at_empty junk k v cell :
  has_entry cell ≠ 1 → chain (add_at junk k v cell) = [(k, v)].
Proof.
  intros Hf. unfold add_at. by destruct (Z.eqb_spec (has_entry cell) 1).
Qed.

Lemma get_walk_add_at junk k v cell :
  key (get_walk k (add_at junk k v cell)) = k ∧
  value (get_walk k (add_at junk k v cell)) = v.
Proof.
  unfold add_at.
  destruct ((has_entry cell =? 1) && negb (k =? key cell)); [|done].
  apply get_walk_add_chain.
Qed.

Lemma add_at_twice junk1 junk2 k v1 v2 cell :
  add_at junk2 k v2 (add_at junk1 k v1 cell) = add_at junk1 k v2 cell.
Proof.
  unfold add_at at 1. rewrite has_entry_add_at. simpl.
  unfold add_at.
  destruct (Z.eqb_spec (has_entry cell) 1) as [Hf|Hf]; simpl.
  - destruct (Z.eqb_spec k (key cell)) as [Hk|Hk]; simpl.
    + by rewrite Z.eqb_refl.
    + destruct (add_chain_head junk1 k v1 cell Hk) as [-> _].
      destruct (Z.eqb_spec k (key cell)); [done|]. simpl.
      apply add_chain_twice.
  - by rewrite Z.eqb_refl.
Qed.

(** ** The table *)

(** [hash] stays inside the bucket array. *)
Lemma hash_bounds h k :
  well_sized h → 0 ≤ hash h k < Z.of_nat (length (data h)).
Proof.
  intros [Hlen Hpos]. unfold hash. rewrite <-Hlen. by apply Z.mod_pos_bound.
Qed.

(** [hash] looks at nothing but the first [sizeof_ptr] bytes at the key. *)
Lemma hash_prefix h k1 k2 :
  bytes_at mem k1 sizeof_ptr = bytes_at mem k2 sizeof_ptr →
  hash h k1 = hash h k2.
Proof. unfold hash. by intros ->. Qed.

Lemma bucket_in_bounds h i :
  0 ≤ i < Z.of_nat (length (data h)) → is_Some (bucket h i).
Proof.
  intros Hi. unfold bucket. rewrite decide_True by lia.
  apply lookup_lt_is_Some_2. lia.
Qed.

Lemma bucket_Some_bounds h i cell :
  bucket h i = Some cell → 0 ≤ i < Z.of_nat (length (data h)).
Proof.
  unfold bucket. destruct (decide (0 ≤ i)); [|done].
  intros Hl%lookup_lt_Some. lia.
Qed.

Lemma hashmap_add_bucket junk k v h cell :
  bucket h (hash h k) = Some cell →
  hashmap_add junk k v h =
  Returns tt (with_bucket h (hash h k) (add_at junk k v cell)).
Proof.
  intros Hb. unfold hashmap_add, mbind, M_bind, reads, load_cell, store_cell.
  rewrite Hb. apply bucket_Some_bounds in Hb. by rewrite decide_True.
Qed.

Lemma hashmap_add_inv junk k v h h' :
  hashmap_add junk k v h = Returns tt h' →
  ∃ cell, bucket h (hash h k) = Some cell ∧
          h' = with_bucket h (hash h k) (add_at junk k v cell).
Proof.
  intros Hadd. destruct (bucket h (hash h k)) as [cell|] eqn:Hb.
  - exists cell. split; [done|].
    rewrite (hashmap_add_bucket _ _ _ _ _ Hb) in Hadd. by simplify_eq.
  - unfold hashmap_add, mbind, M_bind, reads, load_cell in Hadd.
    by rewrite Hb in Hadd.
Qed.

Lemma length_decimal_digits fuel n : (length (decimal_digits fuel n) ≤ fuel)%nat.
Proof.
  revert n. induction fuel as [|fuel IH]; intros n; simpl; [done|].
  rewrite length_app. simpl. destruct (n <? 10); simpl; [lia|].
  specialize (IH (n / 10)). lia.
Qed.

Lemma length_decimal n : (length (decimal n) ≤ 11)%nat.
Proof.
  unfold decimal. destruct (n <? 0).
  - rewrite length_app. pose proof (length_decimal_digits 10 (- n)).
    change (length (list_byte_of_string "-")) with 1%nat. lia.
  - pose proof (length_decimal_digits 10 n). lia.
Qed.

(** The debug line of short strings fits [info]. *)
Lemma info_text_short index link_idx k v :
  short_pair mem k v → (length (info_text mem index link_idx k v) < 256)%nat.
Proof.
  unfold short_pair, info_text. intros Hshort. rewrite !length_app.
  pose proof (length_decimal index). pose proof (length_decimal link_idx).
  change (length (list_byte_of_string "-")) with 1%nat.
  change (length (list_byte_of_string ": '")) with 3%nat.
  change (length (list_byte_of_string "'->'")) with 4%nat.
  change (length (list_byte_of_string "'")) with 1%nat.
  lia.
Qed.

Lemma hashmap_get_bucket k h cell :
  bucket h (hash h k) = Some cell →
  hashmap_get k h =
  if key (get_walk k cell) =? k
  then if decide (length (info_text mem (hash h k) (get_link_idx k cell)
                            (key (get_walk k cell)) (value (get_walk k cell))) < 256)%nat
       then Returns (value (get_walk k cell)) h
       else BufferOverrun
  else AssertFailed.
Proof.
  intros Hb.
  unfold hashmap_get, mbind, M_bind, reads, load_cell, assert, sprintf_info, mret, M_ret.
  rewrite Hb. destruct (key (get_walk k cell) =? k); [|done]. by destruct (decide _).
Qed.

(** The lookup that stops at a cell holding the key returns the value of
    the cell when the two strings are short. *)
Lemma hashmap_get_found k h cell :
  bucket h (hash h k) = Some cell →
  key (get_walk k cell) = k →
  short_pair mem k (value (get_walk k cell)) →
  hashmap_get k h = Returns (value (get_walk k cell)) h.
Proof.
  intros Hb Hk Hshort. rewrite (hashmap_get_bucket _ _ _ Hb), Hk, Z.eqb_refl.
  by rewrite decide_True by by apply info_text_short.
Qed.

Lemma well_sized_with_bucket h i cell :
  well_sized h → well_sized (with_bucket h i cell).
Proof. unfold well_sized. simpl. by rewrite length_insert. Qed.

Lemma hash_with_bucket h i cell k : hash (with_bucket h i cell) k = hash h k.
Proof. done. Qed.

Lemma bucket_with_bucket_eq h i cell :
  0 ≤ i < Z.of_nat (length (data h)) → bucket (with_bucket h i cell) i = Some cell.
Proof.
  intros Hi. unfold bucket, with_bucket. simpl. rewrite decide_True by lia.
  apply list_lookup_insert_eq. lia.
Qed.

Lemma bucket_with_bucket_ne h i j cell :
  0 ≤ i → i ≠ j → bucket (with_bucket h i cell) j = bucket h j.
Proof.
  intros Hi Hne. unfold bucket, with_bucket. simpl.
  destruct (decide (0 ≤ j)); [|done].
  apply list_lookup_insert_ne. lia.
Qed.

Lemma well_sized_Hashmap raw : well_sized (Hashmap raw).
Proof. done. Qed.

(** [hashmap_add] returns on every table of the right size. *)
Lemma hashmap_add_returns junk k v h :
  well_sized h → ∃ h', hashmap_add junk k v h = Returns tt h' ∧ well_sized h'.
Proof.
  intros Hws. destruct (bucket_in_bounds h (hash h k)) as [cell Hb].
  { by apply hash_bounds. }
  eexists. split; [by apply hashmap_add_bucket|].
  by apply well_sized_with_bucket.
Qed.

Lemma hashmap_add_all_returns ops h :
  well_sized h → ∃ h', hashmap_add_all ops h = Returns tt h' ∧ well_sized h'.
Proof.
  revert h. induction ops as [|op ops IH]; intros h Hws; simpl.
  - by exists h.
  - destruct (hashmap_add_returns (ins_junk op) (ins_key op) (ins_value op) h Hws)
      as (h1 & Hadd & Hws1).
    destruct (IH h1 Hws1) as (h' & Hall & Hws').
    exists h'. split; [|done].
    unfold mbind, M_bind. by rewrite Hadd.
Qed.

(** The keys of every bucket after one insertion. *)
Lemma entries_with_bucket_eq h i cell :
  0 ≤ i < Z.of_nat (length (data h)) →
  entries (with_bucket h i cell) i = if has_entry cell =? 1 then chain cell else [].
Proof. intros Hi. unfold entries. by rewrite bucket_with_bucket_eq. Qed.

Lemma entries_with_bucket_ne h i j cell :
  0 ≤ i → i ≠ j → entries (with_bucket h i cell) j = entries h j.
Proof. intros Hi Hne. unfold entries. by rewrite bucket_with_bucket_ne. Qed.

Lemma entry_keys_add junk k v h h' i :
  hashmap_add junk k v h = Returns tt h' →
  entry_keys h' i =
  if decide (i = hash h k)
  then keys_before k (entry_keys h i) ++ [k]
  else entry_keys h i.
Proof.
  intros (cell & Hb & ->)%hashmap_add_inv.
  pose proof (bucket_Some_bounds _ _ _ Hb) as Hi.
  unfold entry_keys. destruct (decide (i = hash h k)) as [->|Hne].
  - rewrite entries_with_bucket_eq by done.
    rewrite has_entry_add_at. simpl.
    rewrite <-chain_keys_chain, chain_keys_add_at.
    unfold entries. rewrite Hb.
    destruct (has_entry cell =? 1); [|done]. by rewrite chain_keys_chain.
  - rewrite entries_with_bucket_ne by (done || lia). done.
Qed.

Lemma entries_add_fresh junk k v h h' :
  hashmap_add junk k v h = Returns tt h' →
  k ∉ entry_keys h (hash h k) →
  entries h' (hash h k) = entries h (hash h k) ++ [(k, v)].
Proof.
  intros (cell & Hb & ->)%hashmap_add_inv.
  pose proof (bucket_Some_bounds _ _ _ Hb) as Hi.
  rewrite entries_with_bucket_eq by done. rewrite has_entry_add_at. simpl.
  unfold entry_keys, entries. rewrite Hb.
  destruct (Z.eqb_spec (has_entry cell) 1) as [Hf|Hf].
  - rewrite <-chain_keys_chain. by apply chain_add_at_fresh.
  - intros _. by apply chain_add_at_empty.
Qed.

Lemma num_buckets_add junk k v h h' :
  hashmap_add junk k v h = Returns tt h' → num_buckets h' = num_buckets h.
Proof. by intros (cell & Hb & ->)%hashmap_add_inv. Qed.

Lemma hash_add junk k v h h' k' :
  hashmap_add junk k v h = Returns tt h' → hash h' k' = hash h k'.
Proof. by intros (cell & Hb & ->)%hashmap_add_inv. Qed.

(** A created table: its slots are the elements of the raw block, the
    first with its key cleared. *)
Lemma bucket_Hashmap raw i :
  0 ≤ i < NUM_BUCKETS →
  bucket (Hashmap raw) i =
  Some (if decide (i = 0) then set_key NULL (raw 0%nat) else raw (Z.to_nat i)).
Proof.
  intros Hi. unfold bucket, Hashmap, NUM_BUCKETS in *. rewrite decide_True by lia.
  cbn [data]. change (Z.to_nat 256) with (S 255).
  rewrite <-cons_seq. cbn [map memset_sizeof_data].
  destruct (decide (i = 0)) as [->|Hne]; [done|].
  destruct (Z.to_nat i) as [|n] eqn:Hn; [lia|].
  cbn [lookup list_lookup]. fold (@lookup _ _ _ (@list_lookup nat)).
  change (map raw (seq 1 255) !! n) with ((raw <$> seq 1 255) !! n).
  rewrite list_lookup_fmap, lookup_seq_lt by lia. done.
Qed.

Lemma entries_Hashmap raw i :
  (∀ n, has_entry (raw n) ≠ 1) → entries (Hashmap raw) i = [].
Proof.
  intros Hraw. unfold entries.
  destruct (bucket (Hashmap raw) i) as [cell|] eqn:Hb; [|done].
  pose proof (bucket_Some_bounds _ _ _ Hb) as Hi.
  rewrite bucket_Hashmap in Hb by done. simplify_eq.
  destruct (decide (i = 0)); simpl.
  - by destruct (Z.eqb_spec (has_entry (raw 0%nat)) 1); [destruct (Hraw 0%nat)|].
  - by destruct (Z.eqb_spec (has_entry (raw (Z.to_nat i))) 1);
      [destruct (Hraw (Z.to_nat i))|].
Qed.

(** ** Runs of insertions *)

Lemma hashmap_add_all_cons_inv op ops h h' :
  hashmap_add_all (op :: ops) h = Returns tt h' →
  ∃ h1, hashmap_add (ins_junk op) (ins_key op) (ins_value op) h = Returns tt h1 ∧
        hashmap_add_all ops h1 = Returns tt h'.
Proof.
  simpl. unfold mbind, M_bind.
  destruct (hashmap_add _ _ _ h) as [[] h1| | |]; [|done..]. by exists h1.
Qed.

Lemma entries_add_other junk k v h h' i :
  hashmap_add junk k v h = Returns tt h' →
  i ≠ hash h k → entries h' i = entries h i.
Proof.
  intros (cell & Hb & ->)%hashmap_add_inv Hne.
  pose proof (bucket_Some_bounds _ _ _ Hb) as Hi.
  by apply entries_with_bucket_ne; [lia|].
Qed.

(** An entry of the bucket of its key is what a lookup of the key finds. *)
Lemma get_of_entry k v h :
  NoDup (entry_keys h (hash h k)) →
  (k, v) ∈ entries h (hash h k) →
  short_pair mem k v →
  hashmap_get k h = Returns v h.
Proof.
  unfold entry_keys, entries.
  destruct (bucket h (hash h k)) as [cell|] eqn:Hb; [|by intros _ ?%not_elem_of_nil].
  destruct (has_entry cell =? 1); [|by intros _ ?%not_elem_of_nil].
  rewrite <-chain_keys_chain. intros Hnd Hin Hshort.
  destruct (get_walk_present k v cell Hnd Hin) as [Hk Hv].
  rewrite <-Hv in *. by apply hashmap_get_found.
Qed.

(** ** Keys that are not in the table *)

(** A pointer no cell of the chain of its bucket holds makes the lookup
    fail its assertion. *)
Lemma get_absent_aborts k h cell :
  bucket h (hash h k) = Some cell →
  k ∉ chain_keys cell →
  hashmap_get k h = AssertFailed.
Proof.
  intros Hb Hk. rewrite (hashmap_get_bucket _ _ _ Hb).
  apply get_walk_absent in Hk. by destruct (Z.eqb_spec (key (get_walk k cell)) k).
Qed.

Lemma holds_not_Hashmap raw k :
  (∀ n, k ∉ chain_keys (raw n)) → k ≠ NULL → holds_not (Hashmap raw) k.
Proof.
  intros Hraw Hnull i cell Hb.
  pose proof (bucket_Some_bounds _ _ _ Hb) as Hi.
  rewrite bucket_Hashmap in Hb by done. simplify_eq.
  destruct (decide (i = 0)); [|done].
  specialize (Hraw 0%nat). destruct (raw 0%nat) as [k0 v0 f0 n0]. simpl in *.
  apply not_elem_of_cons in Hraw as [_ Hraw]. by apply not_elem_of_cons.
Qed.

Lemma holds_not_add junk k' v h h' k :
  holds_not h k → k ≠ k' →
  hashmap_add junk k' v h = Returns tt h' →
  holds_not h' k.
Proof.
  intros Hnot Hne (cell & Hb & ->)%hashmap_add_inv i cell' Hb'.
  pose proof (bucket_Some_bounds _ _ _ Hb) as Hi.
  destruct (decide (i = hash h k')) as [->|Hi'].
  - rewrite bucket_with_bucket_eq in Hb' by done. simplify_eq.
    rewrite chain_keys_add_at.
    intros [Hk|Hk]%elem_of_app; [|by apply list_elem_of_singleton in Hk].
    eapply elem_of_sublist in Hk; [|apply keys_before_sublist].
    destruct (has_entry cell =? 1); [by apply (Hnot _ _ Hb)|by apply not_elem_of_nil in Hk].
  - rewrite bucket_with_bucket_ne in Hb' by (done || lia). by apply (Hnot i).
Qed.

Lemma holds_not_add_all ops k : ∀ h h',
  holds_not h k → k ∉ ins_key <$> ops →
  hashmap_add_all ops h = Returns tt h' →
  holds_not h' k.
Proof.
  induction ops as [|op ops IH]; intros h h' Hnot Hk Hall.
  - simpl in Hall. unfold mret, M_ret in Hall. by simplify_eq.
  - apply hashmap_add_all_cons_inv in Hall as (h1 & Hadd & Hall).
    rewrite fmap_cons in Hk. apply not_elem_of_cons in Hk as [Hne Hk].
    apply (IH h1); [|done..]. by eapply holds_not_add.
Qed.

(** ** The order of the entries of a bucket *)

(** After a run of insertions a bucket holds entries it held before, in
    the order they had, followed by keys inserted into it, in the order
    of their insertion. *)
Lemma add_all_order ops : ∀ h h' i,
  hashmap_add_all ops h = Returns tt h' →
  entry_keys h' i `sublist_of`
    entry_keys h i ++ filter (λ k, hash h k = i) (ins_key <$> ops).
Proof.
  induction ops as [|op ops IH]; intros h h' i Hall.
  - simpl in Hall. unfold mret, M_ret in Hall. simplify_eq. by rewrite app_nil_r.
  - apply hashmap_add_all_cons_inv in Hall as (h1 & Hadd & Hall).
    etrans; [by apply (IH h1)|].
    assert (filter (λ k, hash h1 k = i) (ins_key <$> ops)
            = filter (λ k, hash h k = i) (ins_key <$> ops)) as ->.
    { apply list_filter_iff. intros k. by rewrite (hash_add _ _ _ _ _ k Hadd). }
    rewrite (entry_keys_add _ _ _ _ _ i Hadd), fmap_cons.
    destruct (decide (i = hash h (ins_key op))) as [->|Hne].
    + rewrite filter_cons_True by done. rewrite <-app_assoc. simpl.
      apply sublist_app; [apply keys_before_sublist|reflexivity].
    + by rewrite filter_cons_False by done.
Qed.

(** Keys the table does not hold, inserted once each, are all appended:
    every bucket holds the entries it held before, followed by the
    inserted pairs of that bucket in the order of their insertion. *)
Lemma add_all_fresh ops : ∀ h h' i,
  NoDup (ins_key <$> ops) →
  (∀ k, k ∈ ins_key <$> ops → k ∉ entry_keys h (hash h k)) →
  hashmap_add_all ops h = Returns tt h' →
  entries h' i = entries h i ++ filter (λ kv, hash h kv.1 = i) (ins_pair <$> ops).
Proof.
  induction ops as [|op ops IH]; intros h h' i Hnd Hnew Hall.
  - simpl in Hall. unfold mret, M_ret in Hall. simplify_eq. by rewrite app_nil_r.
  - apply hashmap_add_all_cons_inv in Hall as (h1 & Hadd & Hall).
    rewrite fmap_cons in Hnd, Hnew. apply NoDup_cons in Hnd as [Hop Hnd].
    assert (ins_key op ∉ entry_keys h (hash h (ins_key op))) as Hk.
    { apply Hnew, list_elem_of_here. }
    rewrite (IH h1 h' i); [|done| |done].
    + assert (filter (λ kv, hash h1 kv.1 = i) (ins_pair <$> ops)
              = filter (λ kv, hash h kv.1 = i) (ins_pair <$> ops)) as ->.
      { apply list_filter_iff. intros kv. by rewrite (hash_add _ _ _ _ _ kv.1 Hadd). }
      rewrite fmap_cons.
      destruct (decide (i = hash h (ins_key op))) as [->|Hne].
      * rewrite (entries_add_fresh _ _ _ _ _ Hadd Hk).
        rewrite filter_cons_True by done. by rewrite <-app_assoc.
      * rewrite (entries_add_other _ _ _ _ _ _ Hadd) by done.
        by rewrite filter_cons_False by (simpl; congruence).
    + intros k Hin. rewrite (hash_add _ _ _ _ _ k Hadd).
      rewrite (entry_keys_add _ _ _ _ _ _ Hadd).
      assert (k ∉ entry_keys h (hash h k)) as Hk'.
      { by apply Hnew, list_elem_of_further. }
      destruct (decide _) as [Heq|_]; [|done].
      intros [Hb|Hb]%elem_of_app.
      * eapply elem_of_sublist in Hb; [|apply keys_before_sublist]. done.
      * apply list_elem_of_singleton in Hb. by subst.
Qed.

(** X8.  Keys inserted once each into a created table none of whose
    slots is flagged, whatever their number and their buckets, are all
    found again with their values, the key and value strings being short
    enough for the debug line of the lookup. *)
Lemma distinct_keys_retrievable raw ops :
  (∀ n, has_entry (raw n) ≠ 1) →
  NoDup (ins_key <$> ops) →
  (∀ op, op ∈ ops → short_pair mem (ins_key op) (ins_value op)) →
  ∃ h, hashmap_add_all ops (Hashmap raw) = Returns tt h ∧
       ∀ op, op ∈ ops → hashmap_get (ins_key op) h = Returns (ins_value op) h.
Proof.
  intros Hraw Hnd Hshort.
  destruct (hashmap_add_all_returns ops (Hashmap raw)) as (h & Hrun & _);
    [apply well_sized_Hashmap|].
  exists h. split; [done|]. intros op Hop.
  assert (∀ i, entry_keys (Hashmap raw) i = []) as Hnil.
  { intros i. unfold entry_keys. by rewrite entries_Hashmap. }
  assert (∀ k, hash h k = hash (Hashmap raw) k) as Hh.
  { intros k. unfold hash. f_equal. clear -Hrun.
    revert Hrun. generalize (Hashmap raw). induction ops as [|o ops IH]; intros h0 Hall.
    - simpl in Hall. unfold mret, M_ret in Hall. by simplify_eq.
    - apply hashmap_add_all_cons_inv in Hall as (h1 & Hadd & Hall).
      rewrite (IH _ Hall). by apply num_buckets_add in Hadd. }
  apply get_of_entry.
  - eapply sublist_NoDup; [|by apply (add_all_order ops (Hashmap raw))].
    rewrite Hnil. simpl. by apply NoDup_filter.
  - rewrite (add_all_fresh ops (Hashmap raw) h); [|done| |done].
    + rewrite entries_Hashmap by done. simpl.
      apply list_elem_of_filter. split; [by rewrite Hh|].
      apply list_elem_of_fmap. by exists op.
    + intros k _. rewrite Hnil. apply not_elem_of_nil.
  - by apply Hshort.
Qed.

(** * The claims *)

(** X14.  Round trip by address: on every table, [hashmap_get] called
    with the very pointer given to [hashmap_add] right before returns the
    value inserted, the key and value strings being short enough for the
    debug line of the lookup. *)
Theorem get_after_add junk k v h :
  well_sized h →
  short_pair mem k v →
  ∃ h', hashmap_add junk k v h = Returns tt h' ∧
        hashmap_get k h' = Returns v h'.
Proof.
  intros Hws Hshort. pose proof (hash_bounds h k Hws) as Hi.
  destruct (bucket_in_bounds h (hash h k) Hi) as [cell Hb].
  eexists. split; [by apply hashmap_add_bucket|].
  destruct (get_walk_add_at junk k v cell) as [Hk Hv].
  rewrite (hashmap_get_found k _ (add_at junk k v cell)); [by rewrite Hv| |done|].
  - rewrite hash_with_bucket. by apply bucket_with_bucket_eq.
  - by rewrite Hv.
Qed.

(** C2 (as amended).  A key that was never inserted makes [hashmap_get]
    fail its assertion [cell->key == key]: the call does not return, and
    there is no not-found result.  This holds on every table reached by
    insertions from a created one, the created one included, as long as
    the block the table was made of did not hold the key's address by
    chance; keys are not NULL. *)
Theorem get_never_inserted_aborts raw ops k h :
  (∀ n, k ∉ chain_keys (raw n)) →
  k ≠ NULL →
  k ∉ ins_key <$> ops →
  hashmap_add_all ops (Hashmap raw) = Returns tt h →
  hashmap_get k h = AssertFailed.
Proof.
  intros Hraw Hnull Hops Hrun.
  assert (holds_not (Hashmap raw) k) as Hcreated by by apply holds_not_Hashmap.
  pose proof (holds_not_add_all ops k _ _ Hcreated Hops Hrun) as Hnot.
  destruct (hashmap_add_all_returns ops (Hashmap raw)) as (h0 & Hrun0 & Hws);
    [apply well_sized_Hashmap|].
  rewrite Hrun in Hrun0. simplify_eq.
  destruct (bucket_in_bounds h0 (hash h0 k)) as [cell Hb]; [by apply hash_bounds|].
  by apply (get_absent_aborts k h0 cell), (Hnot _ _ Hb).
Qed.

(** X15.  Inserting the same key pointer twice with two values: the
    second call rewrites the value of the cell the first one wrote, so the
    table is the one a single insertion of the second value gives,
    [hashmap_get] returns the second value (the strings being short enough
    for its debug line), and [num_entries] and the keys of every bucket
    are as after the first call. *)
Theorem add_twice_overwrites junk1 junk2 k v1 v2 h :
  well_sized h →
  short_pair mem k v2 →
  ∃ h1 h2,
    hashmap_add junk1 k v1 h = Returns tt h1 ∧
    hashmap_add junk2 k v2 h1 = Returns tt h2 ∧
    hashmap_get k h2 = Returns v2 h2 ∧
    num_entries h2 = num_entries h1 ∧
    (∀ i, entry_keys h2 i = entry_keys h1 i) ∧
    hashmap_add junk1 k v2 h = Returns tt h2.
Proof.
  intros Hws Hshort. pose proof (hash_bounds h k Hws) as Hi.
  destruct (bucket_in_bounds h (hash h k) Hi) as [cell Hb].
  pose proof (hashmap_add_bucket junk1 k v1 h cell Hb) as Hadd1.
  set (h1 := with_bucket h (hash h k) (add_at junk1 k v1 cell)) in *.
  assert (bucket h1 (hash h1 k) = Some (add_at junk1 k v1 cell)) as Hb1.
  { by apply bucket_with_bucket_eq. }
  pose proof (hashmap_add_bucket junk2 k v2 h1 _ Hb1) as Hadd2.
  assert (with_bucket h1 (hash h1 k) (add_at junk2 k v2 (add_at junk1 k v1 cell))
          = with_bucket h (hash h k) (add_at junk1 k v2 cell)) as Heq.
  { rewrite add_at_twice. unfold with_bucket, h1. simpl.
    by rewrite list_insert_insert_eq. }
  rewrite Heq in Hadd2.
  exists h1, (with_bucket h (hash h k) (add_at junk1 k v2 cell)).
  split_and!; try done.
  - destruct (get_walk_add_at junk1 k v2 cell) as [Hk Hv].
    rewrite (hashmap_get_found k _ (add_at junk1 k v2 cell)); [by rewrite Hv| |done|].
    + rewrite hash_with_bucket. by apply bucket_with_bucket_eq.
    + by rewrite Hv.
  - intros i. rewrite (entry_keys_add _ _ _ _ _ i Hadd2).
    destruct (decide (i = hash h1 k)) as [->|]; [|done].
    rewrite (entry_keys_add _ _ _ _ _ (hash h1 k) Hadd1).
    rewrite decide_True by done.
    by rewrite keys_before_again.
  - by apply hashmap_add_bucket.
Qed.

(** C5 (as amended).  [hashmap_add] never writes [num_entries]: the field
    is the same after the call, when an entry was created as well as when
    a value was overwritten. *)
Theorem add_keeps_num_entries junk k v h h' :
  hashmap_add junk k v h = Returns tt h' →
  num_entries h' = num_entries h.
Proof. by intros (cell & Hb & ->)%hashmap_add_inv. Qed.

(** X16.  Preserved by every run of insertions: no bucket holds two
    entries with the same key pointer. *)
Theorem add_all_keeps_keys_distinct ops h :
  well_sized h →
  (∀ i, NoDup (entry_keys h i)) →
  ∃ h', hashmap_add_all ops h = Returns tt h' ∧
        ∀ i, NoDup (entry_keys h' i).
Proof.
  revert h. induction ops as [|op ops IH]; intros h Hws Hnd; simpl.
  - by exists h.
  - destruct (hashmap_add_returns (ins_junk op) (ins_key op) (ins_value op) h Hws)
      as (h1 & Hadd & Hws1).
    destruct (IH h1 Hws1) as (h' & Hall & Hnd').
    { intros i. rewrite (entry_keys_add _ _ _ _ _ i Hadd).
      destruct (decide _); [by apply keys_before_NoDup|done]. }
    exists h'. split; [|done]. unfold mbind, M_bind. by rewrite Hadd.
Qed.

(** C9.  Along every run of insertions, on every table: each bucket
    holds entries it held before the run, in the order they had, followed
    by keys inserted into it, in the order of their insertion; and keys the
    table does not hold yet (as is every key whose string differs from the
    stored ones), inserted once each, all go into new entries behind the
    entries of their bucket, which keep their places, keys and values. *)
Theorem chain_in_insertion_order ops h :
  well_sized h →
  ∃ h', hashmap_add_all ops h = Returns tt h' ∧
    (∀ i, entry_keys h' i `sublist_of`
            entry_keys h i ++ filter (λ k, hash h k = i) (ins_key <$> ops)) ∧
    (NoDup (ins_key <$> ops) →
     (∀ k, k ∈ ins_key <$> ops → k ∉ entry_keys h (hash h k)) →
     ∀ i, entries h' i =
          entries h i ++ filter (λ kv, hash h kv.1 = i) (ins_pair <$> ops)).
Proof.
  intros Hws. destruct (hashmap_add_all_returns ops h Hws) as (h' & Hrun & _).
  exists h'. split_and!; [done| |].
  - intros i. by apply add_all_order.
  - intros Hnd Hnew i. by apply add_all_fresh.
Qed.

(** C10.  [hashmap_get] writes nothing: whenever it returns, the table
    (bucket array, chains and counters) is the one it was called on. *)
Theorem get_leaves_table k h v h' :
  hashmap_get k h = Returns v h' → h' = h.
Proof.
  unfold hashmap_get, mbind, M_bind, reads, load_cell, assert, sprintf_info,
    mret, M_ret.
  destruct (bucket h (hash h k)) as [cell|]; [|done].
  destruct (key (get_walk k cell) =? k); [|done].
  destruct (decide _); [|done].
  intros Hret. by simplify_eq.
Qed.

(** * Further properties of the code *)

(** ** hash *)

Lemma take_cstring n bs :
  (n ≤ length (cstring bs))%nat → take n bs = take n (cstring bs).
Proof.
  revert n. induction bs as [|b bs IH]; intros n Hn; simpl in *; [done|].
  destruct (Byte.eqb b x00); simpl in *.
  - by replace n with 0%nat by lia.
  - destruct n as [|n]; [done|]. simpl. f_equal. apply IH. lia.
Qed.

(** X1.  On a table whose [num_buckets] is the length of its bucket array,
    [hash] gives an index inside the array, whatever the key and whatever
    [crc32_compute] returns: the slot [h->data + index] exists. *)
Theorem hash_in_range h k :
  well_sized h →
  0 ≤ hash h k < num_buckets h ∧ is_Some (bucket h (hash h k)).
Proof.
  intros Hws. pose proof (hash_bounds h k Hws) as Hi.
  split; [destruct Hws as [-> _]; lia|]. by apply bucket_in_bounds.
Qed.

(** X2.  Two keys whose strings are at least [sizeof(char * )] bytes long
    and agree on their first [sizeof(char * )] bytes fall into the same
    bucket, whatever follows: equal strings of that length do, and so do
    different strings with a common beginning. *)
Theorem hash_long_keys h k1 k2 :
  (sizeof_ptr ≤ length (string_at mem k1))%nat →
  (sizeof_ptr ≤ length (string_at mem k2))%nat →
  take sizeof_ptr (string_at mem k1) = take sizeof_ptr (string_at mem k2) →
  hash h k1 = hash h k2.
Proof.
  intros H1 H2 Heq. apply hash_prefix. unfold bytes_at, string_at in *.
  rewrite (take_cstring _ (drop (Z.to_nat k1) mem)) by done.
  by rewrite (take_cstring _ (drop (Z.to_nat k2) mem)) by done.
Qed.

(** ** Hashmap *)

(** X3.  [Hashmap] returns a table of 256 slots with [num_buckets] 256 and
    [num_entries] 0 whose slots are what the allocator handed out: slot 0
    with its key set to NULL and nothing else changed, every other slot
    untouched, flag, key, value and link. *)
Theorem Hashmap_slots raw i :
  0 ≤ i < NUM_BUCKETS →
  length (data (Hashmap raw)) = 256%nat ∧
  num_buckets (Hashmap raw) = 256 ∧
  num_entries (Hashmap raw) = 0 ∧
  bucket (Hashmap raw) i =
    Some (if decide (i = 0) then set_key NULL (raw 0%nat) else raw (Z.to_nat i)).
Proof. intros Hi. split_and!; [done..|]. by apply bucket_Hashmap. Qed.

(** ** hashmap_get *)

Lemma get_walk_first k v cell : ∀ pre post,
  chain cell = pre ++ (k, v) :: post → k ∉ pre.*1 →
  key (get_walk k cell) = k ∧ value (get_walk k cell) = v.
Proof.
  induction cell as [k0 v0 f|k0 v0 f n IH] using chain_ind;
    intros pre post Hc Hpre; simpl in *.
  - destruct pre as [|p pre]; simpl in *; [by simplify_eq|].
    simplify_eq. by destruct pre.
  - destruct pre as [|p pre]; simpl in *; simplify_eq.
    + by rewrite Z.eqb_refl.
    + simpl in Hpre. apply not_elem_of_cons in Hpre as [Hne Hpre].
      destruct (Z.eqb_spec k0 k); [congruence|]. simpl. by eapply IH.
Qed.

Lemma get_walk_found k cell :
  key (get_walk k cell) = k →
  ∃ pre post, chain cell = pre ++ (k, value (get_walk k cell)) :: post ∧ k ∉ pre.*1.
Proof.
  induction cell as [k0 v0 f|k0 v0 f n IH] using chain_ind; simpl.
  - intros ->. exists [], []. split; [done|apply not_elem_of_nil].
  - destruct (Z.eqb_spec k0 k) as [->|Hne]; simpl.
    + intros _. exists [], (chain n). split; [done|apply not_elem_of_nil].
    + intros (pre & post & Hc & Hpre)%IH.
      exists ((k0, v0) :: pre), post. split; [by rewrite Hc|].
      simpl. by apply not_elem_of_cons.
Qed.

Lemma get_walk_elem k cell : k ∈ chain_keys cell → key (get_walk k cell) = k.
Proof.
  induction cell as [k0 v0 f|k0 v0 f n IH] using chain_ind; simpl.
  - by intros ->%list_elem_of_singleton.
  - destruct (Z.eqb_spec k0 k) as [->|Hne]; simpl; [done|].
    intros [Heq|Hin]%elem_of_cons; [congruence|by apply IH].
Qed.

(** The links counted on the way to the first cell holding the key are
    the cells before it. *)
Lemma get_link_idx_first k v cell : ∀ pre post,
  chain cell = pre ++ (k, v) :: post → k ∉ pre.*1 →
  get_link_idx k cell = Z.of_nat (length pre).
Proof.
  induction cell as [k0 v0 f|k0 v0 f n IH] using chain_ind;
    intros pre post Hc Hpre; simpl in *.
  - destruct pre as [|p pre]; simpl in *; [done|].
    simplify_eq. by destruct pre.
  - destruct pre as [|p pre]; simpl in *; simplify_eq.
    + by rewrite Z.eqb_refl.
    + simpl in Hpre. apply not_elem_of_cons in Hpre as [Hne Hpre].
      destruct (Z.eqb_spec k0 k); [congruence|]. simpl.
      rewrite (IH pre post) by done. lia.
Qed.

(** Two cuts of a chain at the first cell holding the key are the same. *)
Lemma first_cell_unique (k v1 v2 : ptr) (pre1 pre2 post1 post2 : list (ptr * ptr)) :
  pre1 ++ (k, v1) :: post1 = pre2 ++ (k, v2) :: post2 →
  k ∉ pre1.*1 → k ∉ pre2.*1 →
  pre1 = pre2 ∧ v1 = v2.
Proof.
  revert pre2. induction pre1 as [|p pre1 IH]; intros [|q pre2] Heq H1 H2;
    simpl in *; simplify_eq.
  - done.
  - exfalso. apply H2. apply list_elem_of_here.
  - exfalso. apply H1. apply list_elem_of_here.
  - apply not_elem_of_cons in H1 as [_ H1]. apply not_elem_of_cons in H2 as [_ H2].
    destruct (IH pre2) as [-> ->]; done.
Qed.

(** X7.  What [hashmap_get] does is read off the chain of the bucket slot
    of the key, the flag [has_entry] playing no part.  When no cell of the
    chain holds the key pointer, the assertion fails.  Otherwise the first
    cell holding it decides: its value is returned when the debug line
    (bucket index, number of cells before that cell, key string, value
    string) fits the 256 bytes of [info] with its NUL, and [sprintf] writes
    past [info] when it does not. *)
Theorem get_spec k v h cell :
  bucket h (hash h k) = Some cell →
  (hashmap_get k h = Returns v h ↔
     ∃ pre post, chain cell = pre ++ (k, v) :: post ∧ (k ∉ pre.*1) ∧
       (length (info_text mem (hash h k) (Z.of_nat (length pre)) k v) < 256)%nat) ∧
  (hashmap_get k h = BufferOverrun ↔
     ∃ pre v' post, chain cell = pre ++ (k, v') :: post ∧ (k ∉ pre.*1) ∧
       (256 ≤ length (info_text mem (hash h k) (Z.of_nat (length pre)) k v'))%nat) ∧
  (hashmap_get k h = AssertFailed ↔ k ∉ chain_keys cell).
Proof.
  intros Hb. rewrite (hashmap_get_bucket _ _ _ Hb).
  destruct (Z.eqb_spec (key (get_walk k cell)) k) as [Hk|Hk].
  - destruct (get_walk_found k cell Hk) as (pre & post & Hc & Hpre).
    rewrite Hk, (get_link_idx_first k _ cell pre post Hc Hpre).
    set (v0 := value (get_walk k cell)) in *.
    assert (k ∈ chain_keys cell) as Hin.
    { rewrite <-Hk. apply get_walk_key_elem. }
    split_and!; split.
    + destruct (decide _) as [Hfit|]; [|done]. intros Hret. simplify_eq.
      by exists pre, post.
    + intros (pre' & post' & Hc' & Hpre' & Hfit). rewrite Hc in Hc'.
      destruct (first_cell_unique _ _ _ _ _ _ _ Hc' Hpre Hpre') as [-> ->].
      by rewrite decide_True.
    + destruct (decide _) as [|Hfit]; [done|]. intros _.
      exists pre, v0, post. split_and!; [done..|lia].
    + intros (pre' & v' & post' & Hc' & Hpre' & Hfit). rewrite Hc in Hc'.
      destruct (first_cell_unique _ _ _ _ _ _ _ Hc' Hpre Hpre') as [-> ->].
      rewrite decide_False; [done|lia].
    + by destruct (decide _).
    + done.
  - assert (k ∉ chain_keys cell) as Hout.
    { intros Hin. by apply Hk, get_walk_elem. }
    assert (∀ pre v' post, chain cell = pre ++ (k, v') :: post → False) as Hno.
    { intros pre v' post Hc. apply Hout. rewrite chain_keys_chain, Hc, fmap_app.
      apply elem_of_app. right. apply list_elem_of_here. }
    split_and!; split; try done.
    + intros (pre & post & Hc & _). by destruct (Hno _ _ _ Hc).
    + intros (pre & v' & post & Hc & _). by destruct (Hno _ _ _ Hc).
Qed.

(** ** hashmap_add and the other keys *)

Lemma hashmap_get_no_bucket k h :
  bucket h (hash h k) = None → hashmap_get k h = OutOfBounds.
Proof.
  intros Hb. unfold hashmap_get, mbind, M_bind, reads, load_cell. by rewrite Hb.
Qed.

(** A lookup whose bucket slot is the same in two tables has the same
    outcome in both. *)
Lemma hashmap_get_same_bucket k h h' :
  hash h' k = hash h k →
  bucket h' (hash h' k) = bucket h (hash h k) →
  hashmap_get k h' =
  match hashmap_get k h with
  | Returns v _ => Returns v h'
  | o => o
  end.
Proof.
  intros Hh Hb. destruct (bucket h (hash h k)) as [cell|] eqn:Hcell.
  - rewrite (hashmap_get_bucket _ _ _ Hb), (hashmap_get_bucket _ _ _ Hcell), Hh.
    destruct (key (get_walk k cell) =? k); [|done]. by destruct (decide _).
  - by rewrite (hashmap_get_no_bucket _ _ Hb), (hashmap_get_no_bucket _ _ Hcell).
Qed.

Lemma bucket_add_other junk k v h h' i :
  hashmap_add junk k v h = Returns tt h' →
  i ≠ hash h k → bucket h' i = bucket h i.
Proof.
  intros (cell & Hb & ->)%hashmap_add_inv Hne.
  pose proof (bucket_Some_bounds _ _ _ Hb) as Hi.
  by apply bucket_with_bucket_ne; [lia|].
Qed.

(** X4.  [hashmap_add] writes into the bucket of its key only: the slot
    and the chain of every other bucket are as they were, and the lookup of
    a key of another bucket has the outcome it had, value or failed
    assertion. *)
Theorem add_other_bucket junk k v k' h h' :
  hashmap_add junk k v h = Returns tt h' →
  hash h k' ≠ hash h k →
  bucket h' (hash h' k') = bucket h (hash h k') ∧
  hashmap_get k' h' =
  match hashmap_get k' h with
  | Returns v' _ => Returns v' h'
  | o => o
  end.
Proof.
  intros Hadd Hne.
  assert (bucket h' (hash h' k') = bucket h (hash h k')) as Hb.
  { rewrite (hash_add _ _ _ _ _ k' Hadd). by apply (bucket_add_other junk k v). }
  split; [done|]. apply hashmap_get_same_bucket; [|done].
  by rewrite (hash_add _ _ _ _ _ k' Hadd).
Qed.

Lemma get_walk_add_chain_other junk k v k' cell :
  k ∉ chain_keys cell → k' ≠ k →
  (key (get_walk k' (add_chain junk k v cell)) =? k') = (key (get_walk k' cell) =? k') ∧
  (key (get_walk k' cell) = k' →
   value (get_walk k' (add_chain junk k v cell)) = value (get_walk k' cell)).
Proof.
  intros Hk Hne.
  induction cell as [k0 v0 f|k0 v0 f n IH] using chain_ind; simpl in *;
    apply not_elem_of_cons in Hk as [Hk0 Hk];
    destruct (Z.eqb_spec k k0) as [|_]; try done; simpl.
  - destruct (Z.eqb_spec k0 k') as [->|Hk']; simpl; [by rewrite Z.eqb_refl|].
    destruct (Z.eqb_spec k k'); [congruence|].
    destruct (Z.eqb_spec k0 k'); [congruence|]. done.
  - destruct (Z.eqb_spec k0 k') as [->|Hk']; simpl; [by rewrite Z.eqb_refl|].
    by apply IH.
Qed.

Lemma get_link_idx_add_chain_other junk k v k' cell :
  k ∉ chain_keys cell → k' ≠ k →
  key (get_walk k' cell) = k' →
  get_link_idx k' (add_chain junk k v cell) = get_link_idx k' cell.
Proof.
  intros Hk Hne.
  induction cell as [k0 v0 f|k0 v0 f n IH] using chain_ind; simpl in *;
    apply not_elem_of_cons in Hk as [Hk0 Hk];
    destruct (Z.eqb_spec k k0) as [|_]; try done; simpl.
  - intros ->. by rewrite Z.eqb_refl.
  - destruct (Z.eqb_spec k0 k') as [->|Hk']; simpl; [done|].
    intros Hfound. by rewrite IH.
Qed.

(** X5.  The insertion of a key that the chain of its flagged bucket does
    not hold disturbs no other key: the lookup of any other key pointer,
    of the same bucket or not, has the outcome it had before. *)
Theorem add_new_key_keeps_lookups junk k v k' h h' cell :
  bucket h (hash h k) = Some cell →
  has_entry cell = 1 →
  k ∉ chain_keys cell →
  k' ≠ k →
  hashmap_add junk k v h = Returns tt h' →
  hashmap_get k' h' =
  match hashmap_get k' h with
  | Returns v' _ => Returns v' h'
  | o => o
  end.
Proof.
  intros Hb Hf Hk Hne Hadd.
  destruct (decide (hash h k' = hash h k)) as [Heq|Hother].
  - pose proof Hadd as (cell0 & Hb0 & ->)%hashmap_add_inv.
    rewrite Hb in Hb0. simplify_eq.
    pose proof (bucket_Some_bounds _ _ _ Hb) as Hi.
    rewrite (hashmap_get_bucket k' _ (add_at junk k v cell0)).
    2:{ rewrite hash_with_bucket, Heq. by apply bucket_with_bucket_eq. }
    rewrite (hashmap_get_bucket k' h cell0) by by rewrite Heq.
    assert (add_at junk k v cell0 = add_chain junk k v cell0) as ->.
    { unfold add_at. rewrite Hf. simpl.
      destruct (Z.eqb_spec k (key cell0)) as [Hk0|]; [|done].
      exfalso. apply Hk. rewrite Hk0. destruct cell0; apply list_elem_of_here. }
    destruct (get_walk_add_chain_other junk k v k' cell0 Hk Hne) as [Hkey Hv].
    destruct (Z.eqb_spec (key (get_walk k' cell0)) k') as [Hfound|]; [|by rewrite Hkey].
    rewrite Hkey. apply Z.eqb_eq in Hkey.
    rewrite Hkey, Hfound, (Hv Hfound), hash_with_bucket.
    rewrite (get_link_idx_add_chain_other junk k v k' cell0 Hk Hne Hfound).
    by destruct (decide _).
  - apply hashmap_get_same_bucket; rewrite (hash_add _ _ _ _ _ k' Hadd); [done|].
    by apply (bucket_add_other junk k v).
Qed.

Lemma chain_add_chain_existing junk k v v0 post cell : ∀ pre,
  chain cell = pre ++ (k, v0) :: post → k ∉ pre.*1 →
  chain (add_chain junk k v cell) = pre ++ [(k, v)].
Proof.
  induction cell as [k0 v1 f|k0 v1 f n IH] using chain_ind;
    intros pre Hc Hpre; simpl in *.
  - destruct pre as [|p pre]; simpl in *; simplify_eq.
    + by rewrite Z.eqb_refl.
    + by destruct pre.
  - destruct pre as [|p pre]; simpl in *; simplify_eq.
    + by rewrite Z.eqb_refl.
    + simpl in Hpre. apply not_elem_of_cons in Hpre as [Hne Hpre].
      destruct (Z.eqb_spec k k0); [congruence|]. simpl. by rewrite (IH pre).
Qed.

Lemma entries_add_existing junk k v v0 pre post h h' :
  entries h (hash h k) = pre ++ (k, v0) :: post →
  k ∉ pre.*1 →
  hashmap_add junk k v h = Returns tt h' →
  entries h' (hash h k) = pre ++ [(k, v)].
Proof.
  intros Hent Hpre (cell & Hb & ->)%hashmap_add_inv.
  pose proof (bucket_Some_bounds _ _ _ Hb) as Hi.
  rewrite entries_with_bucket_eq by done. rewrite has_entry_add_at. simpl.
  unfold entries in Hent. rewrite Hb in Hent.
  destruct (Z.eqb_spec (has_entry cell) 1) as [Hf|Hf]; [|by destruct pre].
  unfold add_at. rewrite Hf. simpl.
  destruct (Z.eqb_spec k (key cell)) as [Hk|Hk]; simpl.
  - destruct pre as [|p pre]; [done|]. exfalso.
    destruct cell as [k0 v1 f n]. simpl in *. simplify_eq.
    apply Hpre. simpl. apply list_elem_of_here.
  - by apply (chain_add_chain_existing junk k v v0 post).
Qed.

(** X6.  The insertion of a key that its bucket already holds rewrites the
    value of the first entry holding it and makes that entry the last of
    the chain: the entries before it stay, the entries behind it are
    gone. *)
Theorem add_existing_cuts junk k v v0 pre post h h' :
  entries h (hash h k) = pre ++ (k, v0) :: post →
  k ∉ pre.*1 →
  hashmap_add junk k v h = Returns tt h' →
  entries h' (hash h k) = pre ++ [(k, v)].
Proof. apply entries_add_existing. Qed.

(** A key that is not among the entries of its flagged bucket is not
    found. *)
Lemma get_not_entry k h :
  entries h (hash h k) ≠ [] →
  k ∉ entry_keys h (hash h k) →
  hashmap_get k h = AssertFailed.
Proof.
  unfold entry_keys, entries.
  destruct (bucket h (hash h k)) as [cell|] eqn:Hb; [|done].
  destruct (has_entry cell =? 1); [|done].
  rewrite <-chain_keys_chain. intros _ Hk. by apply (get_absent_aborts k h cell).
Qed.

(** X12.  What a second insertion of a key does to the other keys of its
    bucket, the keys of the bucket being distinct pointers: the keys
    stored before it are still found with their values (their strings
    being short enough for the debug line of the lookup), and the lookup
    of every key stored behind it fails its assertion from then on. *)
Theorem add_existing_loses_later junk k v v0 pre post h h' :
  entries h (hash h k) = pre ++ (k, v0) :: post →
  NoDup (entry_keys h (hash h k)) →
  hashmap_add junk k v h = Returns tt h' →
  (∀ k' v', (k', v') ∈ pre → hash h k' = hash h k → short_pair mem k' v' →
            hashmap_get k' h' = Returns v' h') ∧
  (∀ k' v', (k', v') ∈ post → hash h k' = hash h k →
            hashmap_get k' h' = AssertFailed).
Proof.
  intros Hent Hnd Hadd. unfold entry_keys in Hnd.
  rewrite Hent, fmap_app, fmap_cons in Hnd. simpl in Hnd.
  apply NoDup_app in Hnd as (Hpre & Hdisj & Hpost).
  apply NoDup_cons in Hpost as [Hk Hpost].
  assert (k ∉ pre.*1) as Hkpre.
  { intros Hin. apply (Hdisj _ Hin). apply list_elem_of_here. }
  pose proof (entries_add_existing _ _ _ _ _ _ _ _ Hent Hkpre Hadd) as Hent'.
  split; [intros k' v' Hin Hb Hshort|intros k' v' Hin Hb].
  - apply get_of_entry; [| |done]; rewrite (hash_add _ _ _ _ _ k' Hadd), Hb.
    + unfold entry_keys. rewrite Hent', fmap_app. simpl.
      apply NoDup_app. split_and!; [done| |apply NoDup_singleton].
      intros x Hx ->%list_elem_of_singleton. done.
    + rewrite Hent'. apply elem_of_app. by left.
  - assert (k' ∈ post.*1) as Hk'.
    { apply list_elem_of_fmap. by exists (k', v'). }
    apply get_not_entry; rewrite (hash_add _ _ _ _ _ k' Hadd), Hb.
    + rewrite Hent'. by destruct pre.
    + unfold entry_keys. rewrite Hent', fmap_app. simpl.
      intros [Hp|Hp]%elem_of_app.
      * apply (Hdisj _ Hp). by apply list_elem_of_further.
      * apply list_elem_of_singleton in Hp as ->. done.
Qed.

Lemma chain_add_chain_tail junk k v cell :
  ∃ pre, chain (add_chain junk k v cell) = pre ++ [(k, v)] ∧
         pre `prefix_of` chain cell ∧ k ∉ pre.*1.
Proof.
  induction cell as [k0 v0 f|k0 v0 f n IH] using chain_ind; simpl.
  - destruct (Z.eqb_spec k k0) as [->|Hne]; simpl.
    + exists []. split_and!; [done|apply prefix_nil|apply not_elem_of_nil].
    + exists [(k0, v0)]. split_and!; [done..|].
      simpl. apply not_elem_of_cons. split; [done|apply not_elem_of_nil].
  - destruct (Z.eqb_spec k k0) as [->|Hne]; simpl.
    + exists []. split_and!; [done|apply prefix_nil|apply not_elem_of_nil].
    + destruct IH as (pre & -> & Hpre & Hk).
      exists ((k0, v0) :: pre). split_and!; [done|by apply prefix_cons|].
      simpl. by apply not_elem_of_cons.
Qed.

(** X13.  After [hashmap_add] the pair inserted is the last entry of the
    bucket of its key, and the entries before it are the entries the bucket
    held before the first one with that key, in their order: nothing is
    ever put in front of an entry or between two entries. *)
Theorem add_lands_last junk k v h h' :
  hashmap_add junk k v h = Returns tt h' →
  ∃ pre, entries h' (hash h k) = pre ++ [(k, v)] ∧
         pre `prefix_of` entries h (hash h k) ∧ k ∉ pre.*1.
Proof.
  intros (cell & Hb & ->)%hashmap_add_inv.
  pose proof (bucket_Some_bounds _ _ _ Hb) as Hi.
  rewrite entries_with_bucket_eq by done. rewrite has_entry_add_at. simpl.
  unfold entries. rewrite Hb. unfold add_at.
  destruct (Z.eqb_spec (has_entry cell) 1) as [Hf|Hf]; simpl.
  - destruct (Z.eqb_spec k (key cell)) as [Hk|Hk]; simpl.
    + exists []. split_and!; [done|apply prefix_nil|apply not_elem_of_nil].
    + apply chain_add_chain_tail.
  - exists []. split_and!; [done|apply prefix_nil|apply not_elem_of_nil].
Qed.

(** ** Insertions together *)

(** X9.  Insertions into different buckets commute: made in either order
    they leave the same table. *)
Theorem add_commute junk1 junk2 k1 v1 k2 v2 h :
  well_sized h →
  hash h k1 ≠ hash h k2 →
  (hashmap_add junk1 k1 v1;; hashmap_add junk2 k2 v2) h =
  (hashmap_add junk2 k2 v2;; hashmap_add junk1 k1 v1) h.
Proof.
  intros Hws Hne.
  pose proof (hash_bounds h k1 Hws) as Hi1. pose proof (hash_bounds h k2 Hws) as Hi2.
  destruct (bucket_in_bounds h _ Hi1) as [c1 Hb1].
  destruct (bucket_in_bounds h _ Hi2) as [c2 Hb2].
  unfold mbind, M_bind.
  rewrite (hashmap_add_bucket junk1 k1 v1 h c1 Hb1).
  rewrite (hashmap_add_bucket junk2 k2 v2 h c2 Hb2).
  rewrite (hashmap_add_bucket junk2 k2 v2 _ c2).
  2:{ rewrite hash_with_bucket, bucket_with_bucket_ne by (done || lia). done. }
  rewrite (hashmap_add_bucket junk1 k1 v1 _ c1).
  2:{ rewrite hash_with_bucket, bucket_with_bucket_ne by (done || lia). done. }
  rewrite !hash_with_bucket. unfold with_bucket. simpl. f_equal. f_equal.
  apply list_insert_insert_ne. lia.
Qed.

(** X10.  No run of insertions resizes or counts: the bucket array keeps
    its length, [num_buckets] and [num_entries] keep their values, and so
    every key keeps its bucket. *)
Theorem add_all_keeps_shape ops h h' :
  hashmap_add_all ops h = Returns tt h' →
  length (data h') = length (data h) ∧
  num_buckets h' = num_buckets h ∧
  num_entries h' = num_entries h ∧
  ∀ k, hash h' k = hash h k.
Proof.
  revert h. induction ops as [|op ops IH]; intros h Hall.
  - simpl in Hall. unfold mret, M_ret in Hall. by simplify_eq.
  - apply hashmap_add_all_cons_inv in Hall as (h1 & Hadd & Hall).
    destruct (IH h1 Hall) as (-> & -> & -> & Hh).
    apply hashmap_add_inv in Hadd as (cell & Hb & ->).
    split_and!; try done. simpl. by rewrite length_insert.
Qed.

(** X11.  Entries stay in the bucket of their key: when every key of a
    table sits in the bucket [hash] sends it to, the same holds after any
    run of insertions. *)
Theorem add_all_keeps_keys_in_bucket ops h h' :
  (∀ i k, k ∈ entry_keys h i → hash h k = i) →
  hashmap_add_all ops h = Returns tt h' →
  ∀ i k, k ∈ entry_keys h' i → hash h' k = i.
Proof.
  intros Hin Hall i k Hk.
  assert (hash h' k = hash h k) as ->.
  { clear Hin Hk. revert h Hall. induction ops as [|op ops IH]; intros h Hall.
    - simpl in Hall. unfold mret, M_ret in Hall. by simplify_eq.
    - apply hashmap_add_all_cons_inv in Hall as (h1 & Hadd & Hall).
      by rewrite (IH h1 Hall), (hash_add _ _ _ _ _ k Hadd). }
  eapply elem_of_sublist in Hk; [|by apply add_all_order].
  apply elem_of_app in Hk as [Hk|Hk]; [by apply Hin|].
  by apply list_elem_of_filter in Hk as [? _].
Qed.

End Code.

(** * The code run on concrete tables *)

(** The code on the sample memory, with 8-byte pointers. *)
Local Abbreviation hash8 := (hash crc32_bitwise 8 sample_mem).
Local Abbreviation add := (hashmap_add crc32_bitwise 8 sample_mem stale_node).
Local Abbreviation get := (hashmap_get crc32_bitwise 8 sample_mem).
Local Abbreviation add_all := (hashmap_add_all crc32_bitwise 8 sample_mem).
Local Abbreviation ins := (mk_insertion stale_node).
(** A created table whose block was all zero, and the same after the
    insertion of key 1 with value 55 (bucket 120). *)
Local Abbreviation created := (Hashmap zero_block).
Local Abbreviation with_host := (with_bucket (Hashmap zero_block) 120 (mk_entry 1 55 1 None)).

(** Three insertions, two of which fall into bucket 120, and the table
    they leave. *)
Local Abbreviation three := [ins 1 55; ins 19 67; ins 42 79].
Local Abbreviation with_three :=
  (with_bucket
     (with_bucket created 120 (mk_entry 1 55 1 (Some (mk_entry 19 67 3 None))))
     107 (mk_entry 42 79 1 None)).

(** C1, the code at the failing input.  Addresses 1 and 10 hold the same
    string, "hostname".  After the insertion under address 1, the lookup
    under address 10 goes to the same bucket, compares the two pointers
    ([cell->key != key]), not the strings, and fails its assertion instead
    of returning the value inserted. *)
Theorem get_by_equal_string_aborts :
  string_at sample_mem 1 = string_at sample_mem 10 ∧
  hash8 created 1 = hash8 created 10 ∧
  (λ h', entries h' 120) <$> final (add 1 55 created) = Some [(1, 55)] ∧
  (add 1 55;; get 10) created = AssertFailed.
Proof. split_and!; vm_compute; reflexivity. Qed.

(** X14, witness: key 1 on a created table. *)
Lemma get_after_add_witness :
  well_sized created ∧
  short_pair sample_mem 1 55 ∧
  ∃ h', add 1 55 created = Returns tt h' ∧ get 1 h' = Returns 55 h'.
Proof.
  assert (short_pair sample_mem 1 55) as Hshort.
  { apply Nat.leb_le. vm_compute. reflexivity. }
  split_and!; [done..|]. by apply get_after_add.
Defined.

(** The lookup of a key whose value is the string of 300 bytes: the debug
    line does not fit [info]. *)
Lemma get_long_value_overruns :
  length (string_at long_mem 82) = 300%nat ∧
  (hashmap_add crc32_bitwise 8 long_mem stale_node 1 82;;
   hashmap_get crc32_bitwise 8 long_mem 1) created = BufferOverrun.
Proof. split; vm_compute; reflexivity. Qed.

(** C2, counterexample.  On a created table nothing was inserted into,
    the lookup of key 1 aborts. *)
Lemma get_on_created_table_aborts :
  get 1 created = AssertFailed.
Proof. vm_compute. reflexivity. Qed.

(** C2, witness: key 29, which is not among the three keys inserted and
    falls into the bucket of two of them. *)
Lemma get_never_inserted_aborts_witness :
  (∀ n, 29 ∉ chain_keys (zero_block n)) ∧
  29 ≠ NULL ∧
  (29 ∉ ins_key <$> three) ∧
  add_all three created = Returns tt with_three ∧
  get 29 with_three = AssertFailed.
Proof.
  assert (∀ n, 29 ∉ chain_keys (zero_block n)) as Hraw.
  { intros n. simpl. apply not_elem_of_cons. split; [done|apply not_elem_of_nil]. }
  assert (29 ∉ ins_key <$> three) as Hops.
  { simpl. rewrite !not_elem_of_cons. split_and!; [done..|apply not_elem_of_nil]. }
  assert (add_all three created = Returns tt with_three) as Hrun.
  { vm_compute. reflexivity. }
  split_and!; [done..|].
  by apply (get_never_inserted_aborts crc32_bitwise 8 sample_mem zero_block three).
Defined.

(** C3, the code at the failing inputs.  Addresses 39 and 47 both hold the
    string "ab", followed in memory by different bytes: [hash] reads 8 bytes
    from each address, past the end of the string, and sends the two to
    buckets 191 and 155.  Addresses 19 and 29 hold "hostname1" and
    "hostname2": [hash] reads their first 8 bytes only and sends both to
    bucket 120, while the CRC of the 9 bytes of "hostname1" is 43 modulo
    256. *)
Theorem hash_reads_pointer_size_bytes :
  string_at sample_mem 39 = string_at sample_mem 47 ∧
  hash8 created 39 = 191 ∧ hash8 created 47 = 155 ∧
  string_at sample_mem 19 ≠ string_at sample_mem 29 ∧
  hash8 created 19 = 120 ∧ hash8 created 29 = 120 ∧
  crc32_bitwise (string_at sample_mem 19) `mod` NUM_BUCKETS = 43.
Proof. split_and!; vm_compute; congruence. Qed.

(** C4, the code at the failing input.  Addresses 1 and 10 hold the same
    string, "hostname".  The insertion under address 1 with one value and
    then under address 10 with another does not overwrite: the pointers
    differ, so a second entry is appended to the chain, and the lookup
    under address 1 still returns the first value. *)
Theorem add_equal_string_keeps_first :
  string_at sample_mem 1 = string_at sample_mem 10 ∧
  result ((add 1 55;; add 10 67;; get 1) created) = Some 55 ∧
  (λ h', entries h' 120) <$> final ((add 1 55;; add 10 67) created)
    = Some [(1, 55); (10, 67)].
Proof. split_and!; vm_compute; reflexivity. Qed.

(** X15, witness: key 1 inserted with value 55, then with value 67. *)
Lemma add_twice_overwrites_witness :
  well_sized created ∧
  short_pair sample_mem 1 67 ∧
  ∃ h1 h2,
    add 1 55 created = Returns tt h1 ∧
    add 1 67 h1 = Returns tt h2 ∧
    get 1 h2 = Returns 67 h2 ∧
    num_entries h2 = num_entries h1 ∧
    (∀ i, entry_keys h2 i = entry_keys h1 i) ∧
    add 1 67 created = Returns tt h2.
Proof.
  assert (short_pair sample_mem 1 67) as Hshort.
  { apply Nat.leb_le. vm_compute. reflexivity. }
  split_and!; [done..|]. by apply add_twice_overwrites.
Defined.

(** C5, counterexample.  The insertion of key 1 into an empty bucket of a
    created table makes an entry, and [num_entries] is 0 after it. *)
Lemma add_new_entry_leaves_count :
  entries created 120 = [] ∧ num_entries created = 0 ∧
  (λ h', (entries h' 120, num_entries h')) <$> final (add 1 55 created)
    = Some ([(1, 55)], 0).
Proof. split_and!; vm_compute; reflexivity. Qed.

(** C5, witness: the insertion of key 1 into a created table. *)
Lemma add_keeps_num_entries_witness :
  add 1 55 created = Returns tt with_host ∧
  num_entries with_host = num_entries created.
Proof.
  assert (add 1 55 created = Returns tt with_host) as Hadd.
  { vm_compute. reflexivity. }
  split; [done|].
  by apply (add_keeps_num_entries crc32_bitwise 8 sample_mem stale_node 1 55).
Defined.

(** C6, the code at the failing input.  Addresses 1 and 10 hold the same
    string, "hostname".  After the two insertions the chain of bucket 120
    holds two entries whose keys are equal as strings. *)
Theorem chain_holds_equal_strings :
  string_at sample_mem 1 = string_at sample_mem 10 ∧
  (λ h', entry_keys h' 120) <$> final (add_all [ins 1 55; ins 10 67] created)
    = Some [1; 10].
Proof. split; vm_compute; reflexivity. Qed.

(** X16, witness: three insertions into a created table, the last of a
    key already inserted. *)
Lemma add_all_keeps_keys_distinct_witness :
  well_sized created ∧
  (∀ i, NoDup (entry_keys created i)) ∧
  ∃ h', add_all [ins 1 55; ins 10 67; ins 1 79] created = Returns tt h' ∧
        ∀ i, NoDup (entry_keys h' i).
Proof.
  assert (∀ i, NoDup (entry_keys created i)) as Hnd.
  { intros i. unfold entry_keys. rewrite entries_Hashmap by done. apply NoDup_nil_2. }
  split_and!; [done..|].
  by apply add_all_keeps_keys_distinct.
Defined.

(** C7, the code at the failing input.  Addresses 19 and 29 hold the
    different strings "hostname1" and "hostname2", which fall into the same
    bucket.  Key 29 is once in the table; then key 19 is inserted with
    value 67 and key 29 with value 79.  The second insertion of key 29
    finds it at the head of the chain and ends with [cell->next = NULL],
    which cuts the node of key 19 off: the bucket holds key 29 alone and
    the lookup of key 19 aborts. *)
Theorem reinsertion_cuts_chain :
  string_at sample_mem 19 ≠ string_at sample_mem 29 ∧
  hash8 created 19 = hash8 created 29 ∧
  (λ h', entries h' 120) <$> final ((add 29 55;; add 19 67) created)
    = Some [(29, 55); (19, 67)] ∧
  (λ h', entries h' 120) <$> final ((add 29 55;; add 19 67;; add 29 79) created)
    = Some [(29, 79)] ∧
  result ((add 29 55;; add 19 67;; add 29 79;; get 29) created) = Some 79 ∧
  (add 29 55;; add 19 67;; add 29 79;; get 19) created = AssertFailed.
Proof. split_and!; vm_compute; congruence. Qed.

(** C8, the code at the failing input.  The block [snewn] returns holds a
    flag 1, a key and a value in element 1.  [Hashmap] makes an array of
    256 slots with [num_entries] 0, but clears the key of slot 0 only: slot
    1 still is flagged as holding an entry, and bucket 1 has one. *)
Theorem Hashmap_leaves_block_as_found :
  length (data (Hashmap stale_block)) = 256%nat ∧
  num_buckets (Hashmap stale_block) = 256 ∧
  num_entries (Hashmap stale_block) = 0 ∧
  bucket (Hashmap stale_block) 1 = Some (mk_entry 42 79 1 None) ∧
  entries (Hashmap stale_block) 1 = [(42, 79)].
Proof. split_and!; vm_compute; reflexivity. Qed.

(** C9, witness: the three insertions into a created table. *)
Lemma chain_in_insertion_order_witness :
  well_sized created ∧
  NoDup (ins_key <$> three) ∧
  (∀ k, k ∈ ins_key <$> three → k ∉ entry_keys created (hash8 created k)) ∧
  ∃ h', add_all three created = Returns tt h' ∧
    (∀ i, entry_keys h' i `sublist_of`
            entry_keys created i
            ++ filter (λ k, hash8 created k = i) (ins_key <$> three)) ∧
    (∀ i, entries h' i =
          entries created i
          ++ filter (λ kv, hash8 created kv.1 = i) (ins_pair <$> three)).
Proof.
  assert (NoDup (ins_key <$> three)) as Hnd.
  { simpl. rewrite !NoDup_cons, !not_elem_of_cons.
    split_and!; try done; try apply not_elem_of_nil. apply NoDup_nil_2. }
  assert (∀ k, k ∈ ins_key <$> three → k ∉ entry_keys created (hash8 created k))
    as Hnew.
  { intros k _. unfold entry_keys. rewrite entries_Hashmap by done.
    apply not_elem_of_nil. }
  split_and!; [done..|].
  destruct (chain_in_insertion_order crc32_bitwise 8 sample_mem three created)
    as (h' & Hrun & Horder & Hfresh); [done|].
  exists h'. split_and!; [done..|]. by apply Hfresh.
Defined.

(** The three insertions leave the keys 1 and 19 in bucket 120, in this
    order, and the key 42 in bucket 107. *)
Lemma three_insertions_in_order :
  add_all three created = Returns tt with_three ∧
  entries with_three 120 = [(1, 55); (19, 67)] ∧
  entries with_three 107 = [(42, 79)].
Proof. split_and!; vm_compute; reflexivity. Qed.

(** C10, witness: the lookup of key 1 in the table that holds it. *)
Lemma get_leaves_table_witness :
  get 1 with_host = Returns 55 with_host ∧ with_host = with_host.
Proof.
  assert (get 1 with_host = Returns 55 with_host) as Hget.
  { vm_compute. reflexivity. }
  split; [done|].
  by apply (get_leaves_table crc32_bitwise 8 sample_mem 1 with_host 55).
Defined.

(** * The further properties on concrete tables *)

(** A table whose bucket 120 holds the keys 1, 19 and 10 in this order,
    and the same after a second insertion of key 19, with value 55. *)
Local Abbreviation with_chain :=
  (with_bucket created 120
     (mk_entry 1 55 1 (Some (mk_entry 19 67 3 (Some (mk_entry 10 79 3 None)))))).
Local Abbreviation with_chain_cut :=
  (with_bucket with_chain 120 (mk_entry 1 55 1 (Some (mk_entry 19 55 3 None)))).
(** The table after the insertions of key 1 and key 19. *)
Local Abbreviation with_two :=
  (with_bucket created 120 (mk_entry 1 55 1 (Some (mk_entry 19 67 3 None)))).

(** X1, witness: key 1 on a created table. *)
Lemma hash_in_range_witness :
  well_sized created ∧
  0 ≤ hash8 created 1 < num_buckets created ∧
  is_Some (bucket created (hash8 created 1)).
Proof. split; [done|]. by apply hash_in_range. Defined.

(** X2, witness: "hostname1" and "hostname2" with 8-byte pointers. *)
Lemma hash_long_keys_witness :
  (8 ≤ length (string_at sample_mem 19%Z))%nat ∧
  (8 ≤ length (string_at sample_mem 29%Z))%nat ∧
  take 8 (string_at sample_mem 19) = take 8 (string_at sample_mem 29) ∧
  hash8 created 19 = hash8 created 29.
Proof.
  assert ((8 ≤ length (string_at sample_mem 19%Z))%nat) as H1 by (vm_compute; lia).
  assert ((8 ≤ length (string_at sample_mem 29%Z))%nat) as H2 by (vm_compute; lia).
  assert (take 8 (string_at sample_mem 19) = take 8 (string_at sample_mem 29)) as H3
    by (vm_compute; reflexivity).
  split_and!; [exact H1|exact H2|exact H3|].
  exact (hash_long_keys crc32_bitwise 8 sample_mem created 19 29 H1 H2 H3).
Defined.

(** X3, witness: slot 1 of a table made of the stale block. *)
Lemma Hashmap_slots_witness :
  0 ≤ 1 < NUM_BUCKETS ∧
  length (data (Hashmap stale_block)) = 256%nat ∧
  num_buckets (Hashmap stale_block) = 256 ∧
  num_entries (Hashmap stale_block) = 0 ∧
  bucket (Hashmap stale_block) 1 =
    Some (if decide (1 = 0) then set_key NULL (stale_block 0%nat)
          else stale_block (Z.to_nat 1)).
Proof.
  assert (0 ≤ 1 < NUM_BUCKETS) as Hi by (unfold NUM_BUCKETS; lia).
  split; [done|]. by apply Hashmap_slots.
Defined.

(** X7, witness: key 19 in the table of the three insertions. *)
Lemma get_spec_witness :
  bucket with_three (hash8 with_three 19)
    = Some (mk_entry 1 55 1 (Some (mk_entry 19 67 3 None))) ∧
  (get 19 with_three = Returns 67 with_three ↔
     ∃ pre post,
       chain (mk_entry 1 55 1 (Some (mk_entry 19 67 3 None)))
         = pre ++ (19, 67) :: post ∧ (19 ∉ pre.*1) ∧
       (length (info_text sample_mem (hash8 with_three 19%Z)
                  (Z.of_nat (length pre)) 19%Z 67%Z) < 256)%nat) ∧
  (get 19 with_three = BufferOverrun ↔
     ∃ pre v' post,
       chain (mk_entry 1 55 1 (Some (mk_entry 19 67 3 None)))
         = pre ++ (19, v') :: post ∧ (19 ∉ pre.*1) ∧
       (256 ≤ length (info_text sample_mem (hash8 with_three 19%Z)
                        (Z.of_nat (length pre)) 19%Z v'))%nat) ∧
  (get 19 with_three = AssertFailed ↔
     19 ∉ chain_keys (mk_entry 1 55 1 (Some (mk_entry 19 67 3 None)))).
Proof.
  assert (bucket with_three (hash8 with_three 19)
          = Some (mk_entry 1 55 1 (Some (mk_entry 19 67 3 None)))) as Hb.
  { vm_compute. reflexivity. }
  split; [done|]. by apply get_spec.
Defined.

(** X4, witness: the insertion of key 1 (bucket 120) and the lookup of
    key 42 (bucket 107). *)
Lemma add_other_bucket_witness :
  add 1 55 created = Returns tt with_host ∧
  hash8 created 42 ≠ hash8 created 1 ∧
  bucket with_host (hash8 with_host 42) = bucket created (hash8 created 42) ∧
  get 42 with_host =
  match get 42 created with
  | Returns v' _ => Returns v' with_host
  | o => o
  end.
Proof.
  assert (add 1 55 created = Returns tt with_host) as Hadd.
  { vm_compute. reflexivity. }
  assert (hash8 created 42 ≠ hash8 created 1) as Hne.
  { vm_compute. congruence. }
  split_and!; [done..| |];
    by apply (add_other_bucket crc32_bitwise 8 sample_mem stale_node 1 55 42
                created with_host).
Defined.

(** X5, witness: key 19 inserted behind key 1, and the lookup of key 1. *)
Lemma add_new_key_keeps_lookups_witness :
  bucket with_host (hash8 with_host 19) = Some (mk_entry 1 55 1 None) ∧
  has_entry (mk_entry 1 55 1 None) = 1 ∧
  (19 ∉ chain_keys (mk_entry 1 55 1 None)) ∧
  1 ≠ 19 ∧
  add 19 67 with_host = Returns tt with_two ∧
  get 1 with_two =
  match get 1 with_host with
  | Returns v' _ => Returns v' with_two
  | o => o
  end.
Proof.
  assert (bucket with_host (hash8 with_host 19) = Some (mk_entry 1 55 1 None)) as Hb.
  { vm_compute. reflexivity. }
  assert (19 ∉ chain_keys (mk_entry 1 55 1 None)) as Hk.
  { simpl. apply not_elem_of_cons. split; [done|apply not_elem_of_nil]. }
  assert (add 19 67 with_host = Returns tt with_two) as Hadd.
  { vm_compute. reflexivity. }
  split_and!; [done..|].
  by apply (add_new_key_keeps_lookups crc32_bitwise 8 sample_mem stale_node 19 67 1
              with_host with_two (mk_entry 1 55 1 None)).
Defined.

(** X6, witness: key 19 inserted again into the chain 1, 19, 10. *)
Lemma add_existing_cuts_witness :
  entries with_chain (hash8 with_chain 19) = [(1, 55)] ++ (19, 67) :: [(10, 79)] ∧
  (19 ∉ [(1, 55)].*1) ∧
  add 19 55 with_chain = Returns tt with_chain_cut ∧
  entries with_chain_cut (hash8 with_chain 19) = [(1, 55)] ++ [(19, 55)].
Proof.
  assert (entries with_chain (hash8 with_chain 19)
          = [(1, 55)] ++ (19, 67) :: [(10, 79)]) as Hent.
  { vm_compute. reflexivity. }
  assert (19 ∉ [(1, 55)].*1) as Hpre.
  { simpl. apply not_elem_of_cons. split; [done|apply not_elem_of_nil]. }
  assert (add 19 55 with_chain = Returns tt with_chain_cut) as Hadd.
  { vm_compute. reflexivity. }
  split_and!; [done..|].
  by apply (add_existing_cuts crc32_bitwise 8 sample_mem stale_node 19 55 67
              [(1, 55)] [(10, 79)] with_chain with_chain_cut).
Defined.

(** X12, witness: after the second insertion of key 19 into the chain
    1, 19, 10, key 1 is found and key 10 is not. *)
Lemma add_existing_loses_later_witness :
  entries with_chain (hash8 with_chain 19) = [(1, 55)] ++ (19, 67) :: [(10, 79)] ∧
  NoDup (entry_keys with_chain (hash8 with_chain 19)) ∧
  add 19 55 with_chain = Returns tt with_chain_cut ∧
  get 1 with_chain_cut = Returns 55 with_chain_cut ∧
  get 10 with_chain_cut = AssertFailed.
Proof.
  assert (entries with_chain (hash8 with_chain 19)
          = [(1, 55)] ++ (19, 67) :: [(10, 79)]) as Hent.
  { vm_compute. reflexivity. }
  assert (NoDup (entry_keys with_chain (hash8 with_chain 19))) as Hnd.
  { apply (bool_decide_unpack _). vm_compute. exact I. }
  assert (add 19 55 with_chain = Returns tt with_chain_cut) as Hadd.
  { vm_compute. reflexivity. }
  assert (hash8 with_chain 1 = hash8 with_chain 19) as Hb1.
  { vm_compute. reflexivity. }
  assert (hash8 with_chain 10 = hash8 with_chain 19) as Hb10.
  { vm_compute. reflexivity. }
  assert (short_pair sample_mem 1 55) as Hshort.
  { apply Nat.leb_le. vm_compute. reflexivity. }
  destruct (add_existing_loses_later crc32_bitwise 8 sample_mem stale_node 19 55 67
              [(1, 55)] [(10, 79)] with_chain with_chain_cut Hent Hnd Hadd)
    as [Hbefore Hbehind].
  split_and!; [exact Hent|exact Hnd|exact Hadd| |].
  - exact (Hbefore 1 55 (list_elem_of_here _ _) Hb1 Hshort).
  - exact (Hbehind 10 79 (list_elem_of_here _ _) Hb10).
Defined.

(** X8, witness: the three insertions into a created table. *)
Lemma distinct_keys_retrievable_witness :
  (∀ n, has_entry (zero_block n) ≠ 1) ∧
  NoDup (ins_key <$> three) ∧
  (∀ op, op ∈ three → short_pair sample_mem (ins_key op) (ins_value op)) ∧
  ∃ h, add_all three created = Returns tt h ∧
       ∀ op, op ∈ three → get (ins_key op) h = Returns (ins_value op) h.
Proof.
  assert (NoDup (ins_key <$> three)) as Hnd.
  { simpl. rewrite !NoDup_cons, !not_elem_of_cons.
    split_and!; try done; try apply not_elem_of_nil. apply NoDup_nil_2. }
  assert (∀ op, op ∈ three → short_pair sample_mem (ins_key op) (ins_value op))
    as Hshort.
  { intros op Hop. repeat apply elem_of_cons in Hop as [->|Hop];
      [apply Nat.leb_le; vm_compute; reflexivity..|by apply not_elem_of_nil in Hop]. }
  split_and!; [done..|]. by apply distinct_keys_retrievable.
Defined.

(** X9, witness: the insertions of key 1 (bucket 120) and of key 42
    (bucket 107) into a created table. *)
Lemma add_commute_witness :
  well_sized created ∧
  hash8 created 1 ≠ hash8 created 42 ∧
  (add 1 55;; add 42 79) created = (add 42 79;; add 1 55) created.
Proof.
  assert (hash8 created 1 ≠ hash8 created 42) as Hne.
  { vm_compute. congruence. }
  split_and!; [done..|]. by apply add_commute.
Defined.

(** X10, witness: the three insertions into a created table. *)
Lemma add_all_keeps_shape_witness :
  add_all three created = Returns tt with_three ∧
  length (data with_three) = length (data created) ∧
  num_buckets with_three = num_buckets created ∧
  num_entries with_three = num_entries created ∧
  ∀ k, hash8 with_three k = hash8 created k.
Proof.
  assert (add_all three created = Returns tt with_three) as Hrun.
  { vm_compute. reflexivity. }
  split; [done|].
  by apply (add_all_keeps_shape crc32_bitwise 8 sample_mem three).
Defined.

(** X11, witness: the three insertions into a created table. *)
Lemma add_all_keeps_keys_in_bucket_witness :
  (∀ i k, k ∈ entry_keys created i → hash8 created k = i) ∧
  add_all three created = Returns tt with_three ∧
  ∀ i k, k ∈ entry_keys with_three i → hash8 with_three k = i.
Proof.
  assert (∀ i k, k ∈ entry_keys created i → hash8 created k = i) as Hin.
  { intros i k. unfold entry_keys. rewrite entries_Hashmap by done.
    by intros ?%not_elem_of_nil. }
  assert (add_all three created = Returns tt with_three) as Hrun.
  { vm_compute. reflexivity. }
  split_and!; [done..|].
  by apply (add_all_keeps_keys_in_bucket crc32_bitwise 8 sample_mem three created).
Defined.

(** X13, witness: key 19 inserted again into the chain 1, 19, 10. *)
Lemma add_lands_last_witness :
  add 19 55 with_chain = Returns tt with_chain_cut ∧
  ∃ pre, entries with_chain_cut (hash8 with_chain 19) = pre ++ [(19, 55)] ∧
         pre `prefix_of` entries with_chain (hash8 with_chain 19) ∧ 19 ∉ pre.*1.
Proof.
  assert (add 19 55 with_chain = Returns tt with_chain_cut) as Hadd.
  { vm_compute. reflexivity. }
  split; [exact Hadd|].
  exact (add_lands_last crc32_bitwise 8 sample_mem stale_node 19 55
           with_chain with_chain_cut Hadd).
Defined.
